(** * Step validation of Gauge specifications (package [validation])

    A shallow embedding of [validation/validate.go]: the visitor that
    asks the runner whether every step is implemented (with its cache of
    answers), the aggregation of the step errors into the maps per step,
    per scenario and per specification, the coordinator [ValidateSpecs]
    and the table row range check.

    Go values are modelled as follows.
    - [string] is Go's byte string; [int] is [Z] (64 bit, see [intSize]).
    - A pointer whose identity is used as a map key ([*gauge.Step],
      [*gauge.Scenario], [*gauge.Specification]) is a record carrying its
      address; a nilable pointer is an [option].
    - A Go map is a [gmap]; a Go map that is ranged over is the list of its
      entries in the order the range yields them.
    - A nil dereference or a slice out of bounds is a panic: the function
      returns [None]. *)

From Stdlib Require Import ZArith Ascii String List Bool Lia.
From stdpp Require Import base option list strings gmap fin_maps.

#[local] Set Warnings "-clear-no-such-hyp".

Local Open Scope string_scope.
Local Open Scope Z_scope.
Local Open Scope list_scope.

(** ** The parts of Go's library the package calls *)

Module GoString.

(** [s[i]] as a number. *)
Definition byte_val (c : ascii) : Z := Z.of_N (N_of_ascii c).

Definition byte_of (z : Z) : ascii := ascii_of_N (Z.to_N z).

(** [utf8.RuneSelf]: bytes below it are ASCII characters. *)
Definition RuneSelf : Z := 128.

Fixpoint isASCII (s : string) : bool :=
  match s with
  | EmptyString => true
  | String c r => (byte_val c <? RuneSelf) && isASCII r
  end.

Definition lower_byte (c : ascii) : ascii :=
  let n := byte_val c in
  if (65 <=? n) && (n <=? 90) then byte_of (n + 32) else c.

Definition upper_byte (c : ascii) : ascii :=
  let n := byte_val c in
  if (97 <=? n) && (n <=? 122) then byte_of (n - 32) else c.

Fixpoint map_bytes (f : ascii -> ascii) (s : string) : string :=
  match s with
  | EmptyString => EmptyString
  | String c r => String (f c) (map_bytes f r)
  end.

Fixpoint has_prefix (p s : string) : bool :=
  match p, s with
  | EmptyString, _ => true
  | String a p', String b s' => if ascii_dec a b then has_prefix p' s' else false
  | String _ _, EmptyString => false
  end.

(** The loop of [strings.Replace] for a non-empty [old]: the leftmost
    occurrences that do not overlap are replaced, at most [n] of them, all
    of them when [n < 0].  [skip] counts the bytes of the occurrence just
    replaced that are still to be dropped. *)
Fixpoint replace_from (skip : nat) (s old new : string) (n : Z) : string :=
  match s with
  | EmptyString => EmptyString
  | String c r =>
      match skip with
      | S k => replace_from k r old new n
      | O =>
          if n =? 0 then s
          else if has_prefix old s
               then new +:+ replace_from (Nat.pred (String.length old)) r old new (n - 1)
               else String c (replace_from O r old new n)
      end
  end.

(** [strings.Replace(s, old, new, n)] for a non-empty [old] (the package
    only replaces ["_"]); with an empty [old] Go inserts [new] between
    runes, which is left out: [s] is returned. *)
Definition Replace (s old new : string) (n : Z) : string :=
  if string_dec old new then s
  else match old with
       | EmptyString => s
       | String _ _ => replace_from O s old new n
       end.

(** [s[:n]] and [s[n:]]; out of range is a panic. *)
Definition slice_to (s : string) (n : nat) : option string :=
  if (n <=? String.length s)%nat then Some (String.substring 0 n s) else None.

Definition slice_from (s : string) (n : nat) : option string :=
  if (n <=? String.length s)%nat then Some (String.substring n (String.length s - n) s) else None.

Section Case.
(** [strings.ToLower] and [strings.ToUpper] map an ASCII string byte by
    byte; any other string goes through the Unicode tables, which are
    taken as given. *)
Variable unicode_ToLower unicode_ToUpper : string -> string.

Definition ToLower (s : string) : string :=
  if isASCII s then map_bytes lower_byte s else unicode_ToLower s.

Definition ToUpper (s : string) : string :=
  if isASCII s then map_bytes upper_byte s else unicode_ToUpper s.

End Case.

End GoString.

Module Strconv.
Import GoString.

(** The size of [int] in bits. *)
Definition intSize : Z := 64.
Definition maxInt : Z := 2 ^ (intSize - 1) - 1.
Definition minInt : Z := - 2 ^ (intSize - 1).

Definition digit (c : ascii) : option Z :=
  let n := byte_val c in
  if (48 <=? n) && (n <=? 57) then Some (n - 48) else None.

Fixpoint digits (acc : Z) (s : string) : option Z :=
  match s with
  | EmptyString => Some acc
  | String c r =>
      match digit c with
      | Some d => digits (acc * 10 + d) r
      | None => None
      end
  end.

(** [strconv.Atoi]: an optional sign, then one or more decimal digits; the
    value has to fit an [int].  [None] is a non-nil error. *)
Definition Atoi (s : string) : option Z :=
  match s with
  | EmptyString => None
  | String c r =>
      let neg := if ascii_dec c "-"%char then true else false in
      let body := if ascii_dec c "-"%char then r else if ascii_dec c "+"%char then r else s in
      match body with
      | EmptyString => None
      | String _ _ =>
          match digits 0 body with
          | Some n =>
              let v := if neg then - n else n in
              if (minInt <=? v) && (v <=? maxInt) then Some v else None
          | None => None
          end
      end
  end.

End Strconv.

(** ** The table row range *)

Module TableRange.
Import Strconv.

Definition message : string := "Table rows range validation failed.".

(** [ValidateTableRowsRange]: the two indexes and the error ([None] is nil). *)
Definition ValidateTableRowsRange (start end_ : string) (rowCount : Z)
  : Z * Z * option string :=
  match Atoi start with
  | None => (0, 0, Some message)
  | Some startRow =>
      match Atoi end_ with
      | None => (0, 0, Some message)
      | Some endRow =>
          if (startRow >? endRow) || (endRow >? rowCount) || (startRow <? 1) || (endRow <? 1)
          then (0, 0, Some message)
          else (startRow - 1, endRow - 1, None)
      end
  end.

End TableRange.

(** ** Package [gauge]: the parsed tree *)

Module gauge.

(** The address of a heap object: two pointers are equal when their
    addresses are. *)
Definition addr := positive.

(** [gauge.Step], with the address it is stored at.  [Parent] is the step
    behind the pointer (the validator reads its [Value]); [None] is nil. *)
#[local] Unset Elimination Schemes.
Inductive Step : Type := mkStep {
  step_addr : addr;
  LineNo : Z;
  Value : string;
  LineText : string;
  Args : list string;
  IsConcept : bool;
  ConceptSteps : list Step;
  Parent : option Step
}.
#[local] Set Elimination Schemes.

Record Scenario : Type := mkScenario {
  scenario_addr : addr;
  Steps : list Step
}.

Record Specification : Type := mkSpecification {
  spec_addr : addr;
  FileName : string;
  Scenarios : list Scenario;
  Contexts : list Step;
  TearDownSteps : list Step
}.

Record Concept : Type := mkConcept {
  ConceptStep : Step;
  ConceptFileName : string
}.

(** Modelled from the spec: [gauge.ConceptDictionary] and its [Search] are
    not part of this package; the dictionary maps the text of a concept
    heading to the concept (its defining step and file), and a text that
    is not in it has no concept (a nil pointer). *)
Definition ConceptDictionary := gmap string Concept.

Definition Search (dict : ConceptDictionary) (stepValue : string) : option Concept :=
  dict !! stepValue.

End gauge.

(** ** Package [gauge_messages]: what is exchanged with the runner *)

Module gauge_messages.

(** The kinds of message the validator tells apart; every other kind is
    [Message_Other] with its number. *)
Inductive Message_MessageType : Type :=
  | Message_ExecutionStarting
  | Message_StepValidateRequest
  | Message_StepValidateResponse
  | Message_Other (n : Z).

(** A value of the enumeration of error kinds, as its number. *)
Definition StepValidateResponse_ErrorType := Z.

Definition StepValidateResponse_STEP_IMPLEMENTATION_NOT_FOUND : StepValidateResponse_ErrorType := 0.

Record StepValidateRequest : Type := mkStepValidateRequest {
  StepText : option string;
  NumberOfParameters : option Z
}.

Record StepValidateResponse : Type := mkStepValidateResponse {
  IsValid : option bool;
  ErrorMessage : option string;
  ErrorType : option StepValidateResponse_ErrorType
}.

Record Message : Type := mkMessage {
  MessageType : option Message_MessageType;
  StepValidateRequest_ : option StepValidateRequest;
  StepValidateResponse_ : option StepValidateResponse
}.

(** The generated getters accept a nil receiver and a field that is not
    set, and answer the default of the field then. *)
Definition GetMessageType (m : option Message) : Message_MessageType :=
  match m with
  | Some m' => default Message_ExecutionStarting (MessageType m')
  | None => Message_ExecutionStarting
  end.

Definition GetStepValidateResponse (m : option Message) : option StepValidateResponse :=
  match m with
  | Some m' => StepValidateResponse_ m'
  | None => None
  end.

Definition GetIsValid (m : option StepValidateResponse) : bool :=
  match m with
  | Some m' => default false (IsValid m')
  | None => false
  end.

Definition GetErrorType (m : option StepValidateResponse) : StepValidateResponse_ErrorType :=
  match m with
  | Some m' => default StepValidateResponse_STEP_IMPLEMENTATION_NOT_FOUND (ErrorType m')
  | None => StepValidateResponse_STEP_IMPLEMENTATION_NOT_FOUND
  end.

Definition is_StepValidateResponse (t : Message_MessageType) : bool :=
  match t with
  | Message_StepValidateResponse => true
  | _ => false
  end.

End gauge_messages.

(** ** Package [validation] *)

Module validation.
Import GoString gauge gauge_messages.

Record StepValidationError : Type := mkStepValidationError {
  step : gauge.Step;
  message : string;
  fileName : string;
  errorType : option StepValidateResponse_ErrorType
}.

Definition NewValidationError (s : gauge.Step) (m f : string)
    (e : option StepValidateResponse_ErrorType) : StepValidationError :=
  {| step := s; message := m; fileName := f; errorType := e |}.

(** [runner.Runner] as far as the validator uses it: the connection, which
    is the requests written to it so far. *)
Definition Runner := list Message.

Record specValidator : Type := mkSpecValidator {
  specification : option Specification;
  runner : Runner;
  conceptsDictionary : ConceptDictionary;
  stepValidationErrors : list StepValidationError;
  stepValidationCache : gmap string (option StepValidationError)
}.

Definition invalidResponse : StepValidateResponse_ErrorType := -1.

(** The calls [gauge.Specification.Traverse] can make on its visitor. *)
Inductive Visit : Type :=
  | VisitSpecHeading
  | VisitSpecTags
  | VisitDataTable
  | VisitExternalDataTable
  | VisitContextStep (s : gauge.Step)
  | VisitTearDown
  | VisitScenarioHeading
  | VisitScenarioTags
  | VisitScenario
  | VisitStep (s : gauge.Step)
  | VisitComment.

Section Validator.

(** The Unicode tables behind [strings.ToLower] and [strings.ToUpper]. *)
Variable unicode_ToLower unicode_ToUpper : string -> string.

(** The generated [String] method of the enumeration of error kinds: the
    name of the value. *)
Variable ErrorType_String : StepValidateResponse_ErrorType -> string.

(** The variable [getResponseFromRunner]: the function that writes the
    request to the connection of the runner of [v] and waits for the
    answer, a message or a transport error (its text; [None] is nil).
    The answer may depend on everything the validator holds, the requests
    written so far among it, so that any sequence of answers is one such
    function. *)
Variable getResponseFromRunner : Message -> specValidator -> option Message * option string.

(** [gauge.Specification.Traverse], as the calls it makes in their order. *)
Variable Traverse : Specification -> list Visit.

Definition getMessage (message : string) : option string :=
  let lower := ToLower unicode_ToLower (Replace message "_" " " (-1)) in
  match slice_to lower 1, slice_from lower 1 with
  | Some first, Some rest => Some (ToUpper unicode_ToUpper first +:+ rest)
  | _, _ => None
  end.

(** The request has been written to the connection. *)
Definition sent (m : Message) (v : specValidator) : specValidator :=
  {| specification := specification v;
     runner := runner v ++ [m];
     conceptsDictionary := conceptsDictionary v;
     stepValidationErrors := stepValidationErrors v;
     stepValidationCache := stepValidationCache v |}.

Definition validateRequest (s : gauge.Step) : Message :=
  {| MessageType := Some Message_StepValidateRequest;
     StepValidateRequest_ :=
       Some {| StepText := Some (Value s);
               NumberOfParameters := Some (Z.of_nat (length (Args s))) |};
     StepValidateResponse_ := None |}.

(** [specValidator.validateStep]: the error (nil is [None]) and the
    validator afterwards. *)
Definition specValidator_validateStep (s : gauge.Step) (v : specValidator)
  : option (option StepValidationError * specValidator) :=
  let m := validateRequest s in
  let '(r, err) := getResponseFromRunner m v in
  let v' := sent m v in
  match err with
  | Some e =>
      spec ← specification v;
      Some (Some (NewValidationError s e (FileName spec) None), v')
  | None =>
      if is_StepValidateResponse (GetMessageType r) then
        let res := GetStepValidateResponse r in
        if negb (GetIsValid res) then
          msg ← getMessage (ErrorType_String (GetErrorType res));
          match Parent s with
          | None =>
              spec ← specification v;
              res' ← res;
              Some (Some (NewValidationError s msg (FileName spec) (ErrorType res')), v')
          | Some parent =>
              cpt ← Search (conceptsDictionary v) (Value parent);
              res' ← res;
              Some (Some (NewValidationError s msg (ConceptFileName cpt) (ErrorType res')), v')
          end
        else Some (None, v')
      else
        spec ← specification v;
        Some (Some (NewValidationError s "Invalid response from runner for Validation request"
                      (FileName spec) (Some invalidResponse)), v')
  end.

Definition record (e : StepValidationError) (v : specValidator) : specValidator :=
  {| specification := specification v;
     runner := runner v;
     conceptsDictionary := conceptsDictionary v;
     stepValidationErrors := stepValidationErrors v ++ [e];
     stepValidationCache := stepValidationCache v |}.

Definition cached (k : string) (e : option StepValidationError) (v : specValidator) : specValidator :=
  {| specification := specification v;
     runner := runner v;
     conceptsDictionary := conceptsDictionary v;
     stepValidationErrors := stepValidationErrors v;
     stepValidationCache := <[k := e]> (stepValidationCache v) |}.

(** The body of [specValidator.Step] for a step that is no concept. *)
Definition validateLiteral (s : gauge.Step) (v : specValidator) : option specValidator :=
  match stepValidationCache v !! Value s with
  | None =>
      '(err, v1) ← specValidator_validateStep s v;
      let v2 := match err with Some e => record e v1 | None => v1 end in
      Some (cached (Value s) err v2)
  | Some None => Some v
  | Some (Some val) =>
      match Parent s with
      | None =>
          spec ← specification v;
          Some (record (NewValidationError s (message val) (FileName spec) (errorType val)) v)
      | Some parent =>
          cpt ← Search (conceptsDictionary v) (Value parent);
          Some (record (NewValidationError s (message val) (ConceptFileName cpt) (errorType val)) v)
      end
  end.

(** [specValidator.Step]. *)
Fixpoint specValidator_Step (s : gauge.Step) (v : specValidator) {struct s}
  : option specValidator :=
  if IsConcept s then
    (fix each (cs : list gauge.Step) (v : specValidator) {struct cs} : option specValidator :=
       match cs with
       | [] => Some v
       | c :: cs' =>
           match specValidator_Step c v with
           | Some v' => each cs' v'
           | None => None
           end
       end) (ConceptSteps s) v
  else validateLiteral s v.

Definition specValidator_ContextStep (s : gauge.Step) (v : specValidator) : option specValidator :=
  specValidator_Step s v.

Definition specValidator_SpecHeading (v : specValidator) : specValidator :=
  {| specification := specification v;
     runner := runner v;
     conceptsDictionary := conceptsDictionary v;
     stepValidationErrors := [];
     stepValidationCache := stepValidationCache v |}.

(** The method of the visitor a call of the traversal lands in; the
    methods for tags, tables, headings of scenarios, scenarios, comments
    and the tear down marker have an empty body. *)
Definition visit (c : Visit) (v : specValidator) : option specValidator :=
  match c with
  | VisitSpecHeading => Some (specValidator_SpecHeading v)
  | VisitContextStep s => specValidator_ContextStep s v
  | VisitStep s => specValidator_Step s v
  | VisitSpecTags | VisitDataTable | VisitExternalDataTable | VisitTearDown
  | VisitScenarioHeading | VisitScenarioTags | VisitScenario | VisitComment => Some v
  end.

Fixpoint visitAll (cs : list Visit) (v : specValidator) : option specValidator :=
  match cs with
  | [] => Some v
  | c :: cs' => v' ← visit c v; visitAll cs' v'
  end.

(** [specValidator.validate]: the traversal of the specification of [v]. *)
Definition specValidator_validate (v : specValidator)
  : option (list StepValidationError * specValidator) :=
  spec ← specification v;
  v' ← visitAll (Traverse spec) v;
  Some (stepValidationErrors v', v').

(** [validationErrors]: the errors of a specification under its address. *)
Definition validationErrors := gmap addr (Specification * list StepValidationError).

Variable Manifest : Type.

Record validator : Type := mkValidator {
  manifest : option Manifest;
  specsToExecute : list Specification;
  validator_runner : Runner;
  validator_conceptsDictionary : ConceptDictionary
}.

Definition newValidator (m : option Manifest) (s : list Specification) (r : Runner)
    (c : ConceptDictionary) : validator :=
  {| manifest := m; specsToExecute := s; validator_runner := r;
     validator_conceptsDictionary := c |}.

Definition with_specification (spec : Specification) (v : specValidator) : specValidator :=
  {| specification := Some spec;
     runner := runner v;
     conceptsDictionary := conceptsDictionary v;
     stepValidationErrors := stepValidationErrors v;
     stepValidationCache := stepValidationCache v |}.

(** The loop of [validator.validate] over the specifications. *)
Fixpoint validateEach (specs : list Specification) (validationStatus : validationErrors)
    (sv : specValidator) : option (validationErrors * specValidator) :=
  match specs with
  | [] => Some (validationStatus, sv)
  | spec :: specs' =>
      '(errs, sv') ← specValidator_validate (with_specification spec sv);
      validateEach specs'
        (if (length errs =? 0)%nat then validationStatus
         else <[spec_addr spec := (spec, errs)]> validationStatus)
        sv'
  end.

(** [validator.validate]: the map of the errors (the nil map is the empty
    one) and the validator of the specifications as the run leaves it. *)
Definition validator_validate (v : validator) : option (validationErrors * specValidator) :=
  validateEach (specsToExecute v) ∅
    {| specification := None;
       runner := validator_runner v;
       conceptsDictionary := validator_conceptsDictionary v;
       stepValidationErrors := [];
       stepValidationCache := ∅ |}.

End Validator.

Arguments manifest {Manifest} _.
Arguments specsToExecute {Manifest} _.
Arguments validator_runner {Manifest} _.
Arguments validator_conceptsDictionary {Manifest} _.

(** *** The error maps *)

Record ValidationErrMaps : Type := mkValidationErrMaps {
  SpecErrs : gmap addr (list StepValidationError);
  ScenarioErrs : gmap addr (list StepValidationError);
  StepErrs : gmap addr StepValidationError
}.

Definition NewValidationErrMaps : ValidationErrMaps :=
  {| SpecErrs := ∅; ScenarioErrs := ∅; StepErrs := ∅ |}.

(** [m[k] = append(m[k], errs...)]. *)
Definition append_at (k : addr) (errs : list StepValidationError)
    (m : gmap addr (list StepValidationError)) : gmap addr (list StepValidationError) :=
  <[k := default [] (m !! k) ++ errs]> m.

Definition add_StepErr (err : StepValidationError) (errMap : ValidationErrMaps) : ValidationErrMaps :=
  {| SpecErrs := SpecErrs errMap;
     ScenarioErrs := ScenarioErrs errMap;
     StepErrs := <[step_addr (step err) := err]> (StepErrs errMap) |}.

Definition add_ScenarioErr (scenario : Scenario) (err : StepValidationError)
    (errMap : ValidationErrMaps) : ValidationErrMaps :=
  {| SpecErrs := SpecErrs errMap;
     ScenarioErrs := append_at (scenario_addr scenario) [err] (ScenarioErrs errMap);
     StepErrs := StepErrs errMap |}.

Definition add_SpecErrs (spec : Specification) (errs : list StepValidationError)
    (errMap : ValidationErrMaps) : ValidationErrMaps :=
  {| SpecErrs := append_at (spec_addr spec) errs (SpecErrs errMap);
     ScenarioErrs := ScenarioErrs errMap;
     StepErrs := StepErrs errMap |}.

(** The body of the loop of [fillScenarioErrors] for one step. *)
Fixpoint fillScenarioErrors_step (scenario : Scenario) (step : gauge.Step)
    (errMap : ValidationErrMaps) {struct step} : ValidationErrMaps :=
  let errMap1 :=
    if IsConcept step then
      (fix each (cs : list gauge.Step) (em : ValidationErrMaps) {struct cs} : ValidationErrMaps :=
         match cs with
         | [] => em
         | c :: cs' => each cs' (fillScenarioErrors_step scenario c em)
         end) (ConceptSteps step) errMap
    else errMap in
  match StepErrs errMap1 !! step_addr step with
  | Some err => add_ScenarioErr scenario err errMap1
  | None => errMap1
  end.

Definition fillScenarioErrors (scenario : Scenario) (errMap : ValidationErrMaps)
    (steps : list gauge.Step) : ValidationErrMaps :=
  fold_left (fun em s => fillScenarioErrors_step scenario s em) steps errMap.

(** The inner loop of [fillSpecErrors]: the error goes to every scenario
    that has no entry. *)
Definition propagate (err : StepValidationError) (scenarios : list Scenario)
    (errMap : ValidationErrMaps) : ValidationErrMaps :=
  fold_left
    (fun em scenario =>
       match ScenarioErrs em !! scenario_addr scenario with
       | Some _ => em
       | None => add_ScenarioErr scenario err em
       end) scenarios errMap.

(** The body of the loop of [fillSpecErrors] for one step. *)
Fixpoint fillSpecErrors_step (spec : Specification) (context : gauge.Step)
    (errMap : ValidationErrMaps) {struct context} : ValidationErrMaps :=
  let errMap1 :=
    if IsConcept context then
      (fix each (cs : list gauge.Step) (em : ValidationErrMaps) {struct cs} : ValidationErrMaps :=
         match cs with
         | [] => em
         | c :: cs' => each cs' (fillSpecErrors_step spec c em)
         end) (ConceptSteps context) errMap
    else errMap in
  match StepErrs errMap1 !! step_addr context with
  | Some err => propagate err (Scenarios spec) (add_SpecErrs spec [err] errMap1)
  | None => errMap1
  end.

Definition fillSpecErrors (spec : Specification) (errMap : ValidationErrMaps)
    (steps : list gauge.Step) : ValidationErrMaps :=
  fold_left (fun em s => fillSpecErrors_step spec s em) steps errMap.

(** The loop over the scenarios in [getErrMap]: the map and the count of
    the scenarios that have an entry. *)
Definition countSkipped (scenarios : list Scenario) (errMap : ValidationErrMaps)
  : ValidationErrMaps * nat :=
  fold_left
    (fun '(em, skippedScnInSpec) scenario =>
       let em' := fillScenarioErrors scenario em (Steps scenario) in
       (em', match ScenarioErrs em' !! scenario_addr scenario with
             | Some _ => S skippedScnInSpec
             | None => skippedScnInSpec
             end)) scenarios (errMap, O).

(** The body of the loop of [getErrMap] for one entry of the map. *)
Definition getErrMap_entry (entry : Specification * list StepValidationError)
    (errMap : ValidationErrMaps) : ValidationErrMaps :=
  let '(spec, errors) := entry in
  let errMap1 := fold_left (fun em err => add_StepErr err em) errors errMap in
  let '(errMap2, skippedScnInSpec) := countSkipped (Scenarios spec) errMap1 in
  let errMap3 :=
    if (0 <? length (Scenarios spec))%nat && (skippedScnInSpec =? length (Scenarios spec))%nat
    then match Scenarios spec with
         | first :: _ =>
             add_SpecErrs spec (default [] (ScenarioErrs errMap2 !! scenario_addr first)) errMap2
         | [] => errMap2
         end
    else errMap2 in
  fillSpecErrors spec errMap3 (Contexts spec ++ TearDownSteps spec).

(** [getErrMap] on the entries of the map of the errors, in the order the
    range over the map yields them (Go leaves that order open). *)
Definition getErrMap (entries : list (Specification * list StepValidationError))
  : ValidationErrMaps :=
  fold_left (fun em entry => getErrMap_entry entry em) entries NewValidationErrMaps.

(** *** The coordinator *)

Record ParseResult : Type := mkParseResult {
  CriticalErrors : list string;
  Ok : bool
}.

Record ValidationResult : Type := mkValidationResult {
  SpecCollection : option (list Specification);
  ErrMap : option ValidationErrMaps;
  Runner_ : option Runner;
  Errs : list string
}.

Definition NewValidationResult (s : option (list Specification)) (errMap : option ValidationErrMaps)
    (r : option Runner) (e : list string) : ValidationResult :=
  {| SpecCollection := s; ErrMap := errMap; Runner_ := r; Errs := e |}.

(** What [ValidateSpecs] does to the world outside, in order. *)
Inductive Effect : Type :=
  | LogError (text : string)
  | StartAPI (debug : bool)
  | Request (m : Message)
  | LogValidationError (e : StepValidationError)
  | Kill.

Section Coordinator.

Variable unicode_ToLower unicode_ToUpper : string -> string.
Variable ErrorType_String : StepValidateResponse_ErrorType -> string.
Variable getResponseFromRunner : Message -> specValidator -> option Message * option string.
Variable Traverse : Specification -> list Visit.
Variable Manifest : Type.

(** [manifest.ProjectManifest], [parser.ParseConcepts] and
    [parser.ParseSpecs]: what they return. *)
Variable ProjectManifest : option Manifest * option string.
Variable ParseConcepts : ConceptDictionary * ParseResult.
Variable ParseSpecs : list string -> ConceptDictionary -> list Specification * bool.

(** [api.StartAPI] behind [startAPI]: whether the runner comes up; when it
    does not, [logger.Fatalf] ends the process. *)
Variable runnerStarts : bool -> bool.

(** The order in which a range over the map of the errors yields its
    entries. *)
Variable rangeOver : validationErrors -> list (Specification * list StepValidationError).

Definition startAPI (debug : bool) : option Runner :=
  if runnerStarts debug then Some [] else None.

Definition printValidationFailures (vErrs : validationErrors) : list Effect :=
  flat_map (fun entry => map LogValidationError (snd entry)) (rangeOver vErrs).

(** [ValidateSpecs]: the result and what happened on the way; [None] when
    the process ended before a result. *)
Definition ValidateSpecs (args : list string) (debug : bool)
  : option (ValidationResult * list Effect) :=
  let '(manifest, err) := ProjectManifest in
  match err with
  | Some e => Some (NewValidationResult None None None [e], [LogError e])
  | None =>
      let '(conceptDict, res) := ParseConcepts in
      if (0 <? length (CriticalErrors res))%nat
      then Some (NewValidationResult None None None (CriticalErrors res), [])
      else
        let '(s, specsFailed) := ParseSpecs args conceptDict in
        r ← startAPI debug;
        '(vErrs, sv) ← validator_validate unicode_ToLower unicode_ToUpper ErrorType_String
                          getResponseFromRunner Traverse Manifest
                          (newValidator Manifest manifest s r conceptDict);
        let asked := [StartAPI debug] ++ map Request (runner sv) in
        let printed := if (0 <? size vErrs)%nat then printValidationFailures vErrs else [] in
        let errMap := if (0 <? size vErrs)%nat then getErrMap (rangeOver vErrs)
                      else NewValidationErrMaps in
        if specsFailed || negb (Ok res)
        then Some (NewValidationResult None None None ["Parsing failed."],
                   asked ++ printed ++ [Kill])
        else Some (NewValidationResult (Some s) (Some errMap) (Some (runner sv)) [],
                   asked ++ printed)
  end.

End Coordinator.

End validation.

(** * Properties *)

Module Properties.
Import GoString Strconv TableRange gauge gauge_messages validation.

(** ** The table row range *)

(** C8: [ValidateTableRowsRange] returns the two indexes [s - 1] and
    [e - 1] without an error when [start] and [end] parse to [s] and [e]
    with [1 <= s], [1 <= e], [s <= e] and [e <= rowCount]; in every other
    case (a text that is no number, [s > e], [e > rowCount], a bound below
    one) it returns zeros and the one error "Table rows range validation
    failed."; the five calls of the specification come out as it says. *)
Theorem ValidateTableRowsRange_spec :
  (forall (start end_ : string) (rowCount : Z),
     ValidateTableRowsRange start end_ rowCount =
     match Atoi start, Atoi end_ with
     | Some s, Some e =>
         if decide (1 <= s /\ 1 <= e /\ s <= e /\ e <= rowCount)
         then (s - 1, e - 1, None)
         else (0, 0, Some "Table rows range validation failed.")
     | _, _ => (0, 0, Some "Table rows range validation failed.")
     end)
  /\ ValidateTableRowsRange "2" "4" 10 = (1, 3, None)
  /\ ValidateTableRowsRange "4" "2" 10 = (0, 0, Some "Table rows range validation failed.")
  /\ ValidateTableRowsRange "0" "2" 10 = (0, 0, Some "Table rows range validation failed.")
  /\ ValidateTableRowsRange "2" "11" 10 = (0, 0, Some "Table rows range validation failed.")
  /\ ValidateTableRowsRange "x" "2" 10 = (0, 0, Some "Table rows range validation failed.").
Proof.
  split; [| repeat split; reflexivity].
  intros start end_ rowCount. unfold ValidateTableRowsRange, message.
  destruct (Atoi start) as [s|]; [| reflexivity].
  destruct (Atoi end_) as [e|]; [| reflexivity].
  rewrite !Z.gtb_ltb.
  destruct (Z.ltb_spec e s), (Z.ltb_spec rowCount e), (Z.ltb_spec s 1), (Z.ltb_spec e 1);
    cbn [orb]; case_decide; try reflexivity; lia.
Qed.

(** ** The message of an error kind *)

(** The rendering in the words of the specification: every underscore
    becomes a space, every letter lower case, the first character upper
    case. *)
Definition underscores_to_spaces (s : string) : string :=
  map_bytes (fun c => if ascii_dec c "_"%char then " "%char else c) s.

Definition lower_case (s : string) : string := map_bytes lower_byte s.

Definition capitalize (s : string) : string :=
  match s with
  | EmptyString => EmptyString
  | String c r => String (upper_byte c) r
  end.

Definition rendered (name : string) : string :=
  capitalize (lower_case (underscores_to_spaces name)).

Lemma replace_underscores (s : string) (n : Z) :
  n < 0 -> replace_from O s "_" " " n = underscores_to_spaces s.
Proof.
  revert n. induction s as [|c r IH]; intros n Hn; [reflexivity |].
  cbn [replace_from]. replace (n =? 0) with false by (symmetry; apply Z.eqb_neq; lia).
  cbn [has_prefix String.length Nat.pred]. unfold underscores_to_spaces. cbn [map_bytes].
  destruct (ascii_dec "_" c) as [<-|Hc].
  - destruct (ascii_dec "_" "_"); [| congruence].
    cbn [String.append]. f_equal. apply IH. lia.
  - destruct (ascii_dec c "_"); [congruence |].
    f_equal. apply IH. lia.
Qed.

Lemma isASCII_underscores_to_spaces (s : string) :
  isASCII s = true -> isASCII (underscores_to_spaces s) = true.
Proof.
  unfold underscores_to_spaces.
  induction s as [|c r IH]; [reflexivity |]. cbn [isASCII map_bytes].
  intros [Hc Hr]%andb_true_iff.
  rewrite (IH Hr), andb_true_r. destruct (ascii_dec c "_"); [reflexivity | exact Hc].
Qed.

Lemma lower_byte_ascii (c : ascii) :
  (byte_val c <? RuneSelf) = true -> (byte_val (lower_byte c) <? RuneSelf) = true.
Proof.
  unfold lower_byte. destruct (_ && _) eqn:E; [| done].
  intros _. apply andb_true_iff in E as [E1 E2].
  apply Z.leb_le in E1, E2. apply Z.ltb_lt.
  unfold byte_val, byte_of, RuneSelf in *.
  rewrite N_ascii_embedding; lia.
Qed.

Lemma isASCII_lower_case (s : string) :
  isASCII s = true -> isASCII (lower_case s) = true.
Proof.
  unfold lower_case.
  induction s as [|c r IH]; [reflexivity |]. cbn [isASCII map_bytes].
  intros [Hc Hr]%andb_true_iff.
  rewrite (IH Hr), andb_true_r. by apply lower_byte_ascii.
Qed.

(** ** Induction over a step and the steps of its concept *)

Section StepInduction.
Variable P : gauge.Step -> Prop.
Hypothesis step_case : forall s, Forall P (ConceptSteps s) -> P s.

Fixpoint Step_nested_ind (s : gauge.Step) : P s :=
  match s with
  | mkStep a l v t args c cs p =>
      step_case (mkStep a l v t args c cs p)
        ((fix all (l : list gauge.Step) : Forall P l :=
            match l with
            | [] => @List.Forall_nil _ P
            | x :: r => @List.Forall_cons _ P x r (Step_nested_ind x) (all r)
            end) cs)
  end.
End StepInduction.

(** The steps that are no concept under a step, through the bodies of the
    concepts to any depth, in the order of the traversal. *)
Fixpoint leaves (s : gauge.Step) : list gauge.Step :=
  if IsConcept s then
    (fix each (cs : list gauge.Step) : list gauge.Step :=
       match cs with
       | [] => []
       | c :: cs' => leaves c ++ each cs'
       end) (ConceptSteps s)
  else [s].

Lemma leaves_concept (s : gauge.Step) :
  IsConcept s = true -> leaves s = flat_map leaves (ConceptSteps s).
Proof.
  destruct s as [a l v t args c cs p]. cbn. intros ->.
  induction cs as [|x r IH]; [reflexivity |]. cbn. by rewrite IH.
Qed.

Lemma leaves_literal (s : gauge.Step) : IsConcept s = false -> leaves s = [s].
Proof. destruct s. cbn. by intros ->. Qed.

Lemma leaves_not_concept (s l : gauge.Step) : l ∈ leaves s -> IsConcept l = false.
Proof.
  revert l. induction s as [s IH] using Step_nested_ind. intros l.
  destruct (IsConcept s) eqn:E.
  - rewrite (leaves_concept _ E). intros Hl.
    apply list_elem_of_In, in_flat_map in Hl as (c & Hc & Hl).
    rewrite Forall_forall in IH. apply (IH c); by apply list_elem_of_In.
  - rewrite (leaves_literal _ E). by intros ->%list_elem_of_singleton.
Qed.

Section ValidatorProperties.

Variable unicode_ToLower unicode_ToUpper : string -> string.
Variable ErrorType_String : StepValidateResponse_ErrorType -> string.
Variable getResponseFromRunner : Message -> specValidator -> option Message * option string.
Variable Traverse : Specification -> list Visit.

Local Abbreviation getMessage := (validation.getMessage unicode_ToLower unicode_ToUpper).
Local Abbreviation validateStep :=
  (specValidator_validateStep unicode_ToLower unicode_ToUpper ErrorType_String getResponseFromRunner).
Local Abbreviation validateLiteral :=
  (validation.validateLiteral unicode_ToLower unicode_ToUpper ErrorType_String getResponseFromRunner).
Local Abbreviation Step :=
  (specValidator_Step unicode_ToLower unicode_ToUpper ErrorType_String getResponseFromRunner).
Local Abbreviation visit :=
  (validation.visit unicode_ToLower unicode_ToUpper ErrorType_String getResponseFromRunner).
Local Abbreviation visitAll :=
  (validation.visitAll unicode_ToLower unicode_ToUpper ErrorType_String getResponseFromRunner).

(** [validateLiteral] on every step of a list, in order. *)
Fixpoint validateLeaves (ls : list gauge.Step) (v : specValidator) : option specValidator :=
  match ls with
  | [] => Some v
  | l :: ls' => v' ← validateLiteral l v; validateLeaves ls' v'
  end.

Lemma validateLeaves_app (l1 l2 : list gauge.Step) (v : specValidator) :
  validateLeaves (l1 ++ l2) v = v' ← validateLeaves l1 v; validateLeaves l2 v'.
Proof.
  revert v. induction l1 as [|x r IH]; intros v; [reflexivity |]. cbn.
  destruct (validateLiteral x v) as [v'|]; [apply IH | reflexivity].
Qed.

Lemma Step_concept (s : gauge.Step) (v : specValidator) :
  IsConcept s = true ->
  Step s v = foldl (fun acc c => v' ← acc; Step c v') (Some v) (ConceptSteps s).
Proof.
  destruct s as [a l vl t args c cs p]. cbn. intros ->.
  revert v. induction cs as [|x r IH]; intros v; [reflexivity |]. cbn.
  destruct (Step x v) as [v'|]; cbn.
  - apply IH.
  - clear. induction r as [|y r IH]; [reflexivity | exact IH].
Qed.

Lemma Step_leaves (s : gauge.Step) (v : specValidator) :
  Step s v = validateLeaves (leaves s) v.
Proof.
  revert v. induction s as [s IH] using Step_nested_ind. intros v.
  destruct (IsConcept s) eqn:E.
  - rewrite (Step_concept _ _ E), (leaves_concept _ E).
    revert v. induction IH as [|x r Hx Hr IHr]; intros v; [reflexivity |].
    cbn. rewrite validateLeaves_app, <- Hx.
    destruct (Step x v) as [v'|]; cbn.
    + apply IHr.
    + clear. induction r as [|y r IH]; [reflexivity | exact IH].
  - rewrite (leaves_literal _ E). destruct s; cbn in *. rewrite E. cbn.
    by destruct (validation.validateLiteral _ _ _ _ _ _).
Qed.

(** *** One request to the runner *)

Lemma validateStep_transport (s : gauge.Step) (v : specValidator) (r : option Message)
    (e : string) (spec : Specification) :
  getResponseFromRunner (validateRequest s) v = (r, Some e) ->
  specification v = Some spec ->
  validateStep s v
  = Some (Some (NewValidationError s e (FileName spec) None), sent (validateRequest s) v).
Proof. intros Hr Hs. unfold specValidator_validateStep. rewrite Hr, Hs. reflexivity. Qed.

Lemma validateStep_protocol (s : gauge.Step) (v : specValidator) (r : option Message)
    (spec : Specification) :
  getResponseFromRunner (validateRequest s) v = (r, None) ->
  is_StepValidateResponse (GetMessageType r) = false ->
  specification v = Some spec ->
  validateStep s v
  = Some (Some (NewValidationError s "Invalid response from runner for Validation request"
                  (FileName spec) (Some invalidResponse)), sent (validateRequest s) v).
Proof. intros Hr Ht Hs. unfold specValidator_validateStep. rewrite Hr, Ht, Hs. reflexivity. Qed.

Lemma validateStep_valid (s : gauge.Step) (v : specValidator) (r : option Message) :
  getResponseFromRunner (validateRequest s) v = (r, None) ->
  is_StepValidateResponse (GetMessageType r) = true ->
  GetIsValid (GetStepValidateResponse r) = true ->
  validateStep s v = Some (None, sent (validateRequest s) v).
Proof. intros Hr Ht Hv. unfold specValidator_validateStep. rewrite Hr, Ht, Hv. reflexivity. Qed.

(** The file an error reported by the runner is attributed to. *)
Definition attributed (s : gauge.Step) (spec : option Specification) (dict : ConceptDictionary)
  : option string :=
  match Parent s with
  | None => FileName <$> spec
  | Some parent => ConceptFileName <$> Search dict (Value parent)
  end.

Lemma validateStep_invalid (s : gauge.Step) (v : specValidator) (r : option Message)
    (res : StepValidateResponse) (msg file : string) :
  getResponseFromRunner (validateRequest s) v = (r, None) ->
  is_StepValidateResponse (GetMessageType r) = true ->
  GetStepValidateResponse r = Some res ->
  GetIsValid (Some res) = false ->
  getMessage (ErrorType_String (GetErrorType (Some res))) = Some msg ->
  attributed s (specification v) (conceptsDictionary v) = Some file ->
  validateStep s v
  = Some (Some (NewValidationError s msg file (ErrorType res)), sent (validateRequest s) v).
Proof.
  intros Hr Ht Hres Hv Hm Hf. unfold specValidator_validateStep, attributed in *.
  rewrite Hr, Ht, Hres, Hv, Hm. cbn.
  destruct (Parent s) as [parent|].
  - destruct (Search _ _) as [cpt|]; cbn in *; [| done]. by injection Hf as <-.
  - destruct (specification v) as [spec|]; cbn in *; [| done]. by injection Hf as <-.
Qed.

Lemma validateStep_sent (s : gauge.Step) (v v' : specValidator)
    (err : option StepValidationError) :
  validateStep s v = Some (err, v') ->
  v' = sent (validateRequest s) v /\
  forall e, err = Some e -> step e = s.
Proof.
  unfold specValidator_validateStep.
  destruct (getResponseFromRunner _ _) as [r [e|]].
  - destruct (specification v); cbn; [| done].
    intros [= <- <-]. split; [done |]. by intros ? [= <-].
  - destruct (is_StepValidateResponse _).
    + destruct (negb _).
      * destruct (getMessage _); cbn; [| done].
        destruct (Parent s).
        -- destruct (Search _ _); cbn; [| done].
           destruct (GetStepValidateResponse r); cbn; [| done].
           intros [= <- <-]. split; [done |]. by intros ? [= <-].
        -- destruct (specification v); cbn; [| done].
           destruct (GetStepValidateResponse r); cbn; [| done].
           intros [= <- <-]. split; [done |]. by intros ? [= <-].
      * intros [= <- <-]. split; [done |]. by intros ? [=].
    + destruct (specification v); cbn; [| done].
      intros [= <- <-]. split; [done |]. by intros ? [= <-].
Qed.

(** What the validator keeps of an error for the text of its step. *)
Definition core (e : StepValidationError)
  : gauge.Step * string * option StepValidateResponse_ErrorType :=
  (step e, message e, errorType e).

Definition outcome_of (s : gauge.Step) (o : option StepValidationError)
  : list (gauge.Step * string * option StepValidateResponse_ErrorType) :=
  match o with
  | Some val => [(s, message val, errorType val)]
  | None => []
  end.

(** What a visit of a step that is no concept does to the validator. *)
Lemma validateLiteral_effect (s : gauge.Step) (v v' : specValidator) :
  validateLiteral s v = Some v' ->
  specification v' = specification v /\
  conceptsDictionary v' = conceptsDictionary v /\
  exists o es,
    stepValidationCache v' !! Value s = Some o /\
    stepValidationCache v'
    = match stepValidationCache v !! Value s with
      | Some _ => stepValidationCache v
      | None => <[Value s := o]> (stepValidationCache v)
      end /\
    runner v'
    = runner v ++ match stepValidationCache v !! Value s with
                  | Some _ => []
                  | None => [validateRequest s]
                  end /\
    stepValidationErrors v' = stepValidationErrors v ++ es /\
    map core es = outcome_of s o /\
    Forall (fun e => step e = s) es.
Proof.
  unfold validation.validateLiteral.
  destruct (stepValidationCache v !! Value s) as [[val|]|] eqn:Hc.
  - intros H.
    assert (exists f, v' = record (NewValidationError s (message val) f (errorType val)) v)
      as [f ->].
    { destruct (Parent s).
      - destruct (Search _ _); cbn in H; [| done]. injection H as <-. eauto.
      - destruct (specification v); cbn in H; [| done]. injection H as <-. eauto. }
    cbn. repeat split. exists (Some val), [NewValidationError s (message val) f (errorType val)].
    rewrite app_nil_r. repeat split; try done. by repeat constructor.
  - intros [= <-]. repeat split. exists None, []. rewrite !app_nil_r. by repeat split.
  - destruct (validateStep s v) as [[err v1]|] eqn:Hv; cbn; [| done].
    intros [= <-]. apply validateStep_sent in Hv as [-> Hstep].
    destruct err as [e|]; cbn; repeat split.
    + exists (Some e), [e]. rewrite lookup_insert_eq. repeat split; try done.
      * cbn. unfold core. by rewrite (Hstep e eq_refl).
      * repeat constructor. by apply Hstep.
    + exists None, []. rewrite lookup_insert_eq, app_nil_r. by repeat split.
Qed.

(** *** A run of visits *)

(** The steps of a list whose text has not been seen before, each text
    being seen from its first step on. *)
Fixpoint firsts (seen : gset string) (ls : list gauge.Step) : list gauge.Step :=
  match ls with
  | [] => []
  | s :: r =>
      if decide (Value s ∈ seen) then firsts seen r
      else s :: firsts ({[Value s]} ∪ seen) r
  end.

(** The outcome the cache holds for the text of each step of a list. *)
Definition outcomes (cache : gmap string (option StepValidationError)) (ls : list gauge.Step)
  : list (gauge.Step * string * option StepValidateResponse_ErrorType) :=
  flat_map (fun s => outcome_of s (mjoin (cache !! Value s))) ls.

Definition values (ls : list gauge.Step) : gset string := list_to_set (map Value ls).

Lemma outcomes_weaken (c c' : gmap string (option StepValidationError)) (ls : list gauge.Step) :
  c ⊆ c' -> values ls ⊆ dom c -> outcomes c ls = outcomes c' ls.
Proof.
  intros Hsub. unfold outcomes, values. induction ls as [|s r IH]; [reflexivity |].
  cbn. intros Hdom.
  assert (is_Some (c !! Value s)) as [o Ho] by (apply elem_of_dom; set_solver).
  rewrite Ho, (lookup_weaken _ _ _ _ Ho Hsub), IH; [done | set_solver].
Qed.

Lemma validateLeaves_effect (ls : list gauge.Step) (v v' : specValidator) :
  validateLeaves ls v = Some v' ->
  specification v' = specification v /\
  conceptsDictionary v' = conceptsDictionary v /\
  stepValidationCache v ⊆ stepValidationCache v' /\
  dom (stepValidationCache v') = dom (stepValidationCache v) ∪ values ls /\
  runner v' = runner v ++ map validateRequest (firsts (dom (stepValidationCache v)) ls) /\
  exists es,
    stepValidationErrors v' = stepValidationErrors v ++ es /\
    map core es = outcomes (stepValidationCache v') ls /\
    Forall (fun e => step e ∈ ls) es.
Proof.
  revert v. induction ls as [|s r IH]; intros v.
  - intros [= <-]. unfold values. cbn. repeat split; try done.
    + set_solver.
    + by rewrite app_nil_r.
    + exists []. by rewrite app_nil_r.
  - cbn [validateLeaves]. destruct (validateLiteral s v) as [v1|] eqn:H1; cbn; [| done].
    intros H2. apply validateLiteral_effect in H1 as (Hs1 & Hd1 & o & es1 & Ho & Hc1 & Hr1 & He1 & Hm1 & Hf1).
    apply IH in H2 as (Hs2 & Hd2 & Hsub2 & Hdom2 & Hr2 & es2 & He2 & Hm2 & Hf2).
    assert (stepValidationCache v ⊆ stepValidationCache v1
            /\ dom (stepValidationCache v1) = {[Value s]} ∪ dom (stepValidationCache v))
      as [Hsub1 Hdom1].
    { rewrite Hc1. destruct (stepValidationCache v !! Value s) eqn:E.
      - split; [done |]. apply elem_of_dom_2 in E. set_solver.
      - split; [by apply insert_subseteq |]. by rewrite dom_insert_L. }
    repeat split.
    + congruence.
    + congruence.
    + by etrans.
    + rewrite Hdom2, Hdom1. unfold values. cbn. set_solver.
    + rewrite Hr2, Hr1, <- app_assoc. f_equal. cbn [firsts].
      destruct (decide (Value s ∈ dom (stepValidationCache v))) as [Hin|Hin].
      * apply elem_of_dom in Hin as [x Hx]. rewrite Hx. cbn.
        rewrite Hc1, Hx. done.
      * apply not_elem_of_dom in Hin. rewrite Hin. cbn. by rewrite Hdom1.
    + exists (es1 ++ es2). repeat split.
      * by rewrite He2, He1, app_assoc.
      * rewrite map_app, Hm1, Hm2. unfold outcomes. cbn.
        by rewrite (lookup_weaken _ _ _ _ Ho Hsub2).
      * apply Forall_app. split.
        -- eapply Forall_impl; [exact Hf1 |]. intros e ->. set_solver.
        -- eapply Forall_impl; [exact Hf2 |]. intros e ?. set_solver.
Qed.

Lemma firsts_app (seen : gset string) (l1 l2 : list gauge.Step) :
  firsts seen (l1 ++ l2) = firsts seen l1 ++ firsts (seen ∪ values l1) l2.
Proof.
  revert seen. unfold values. induction l1 as [|s r IH]; intros seen; cbn.
  - f_equal. set_solver.
  - case_decide.
    + rewrite IH. do 2 f_equal. set_solver.
    + cbn. rewrite IH. do 3 f_equal. set_solver.
Qed.

Lemma values_app (l1 l2 : list gauge.Step) : values (l1 ++ l2) = values l1 ∪ values l2.
Proof. unfold values. rewrite map_app. set_solver. Qed.

Definition is_heading (c : Visit) : bool :=
  match c with VisitSpecHeading => true | _ => false end.

(** The steps the validator is handed by a run of calls, concepts replaced
    by the steps under them. *)
Definition visited_by (c : Visit) : list gauge.Step :=
  match c with
  | VisitStep s | VisitContextStep s => leaves s
  | _ => []
  end.

Definition visited (cs : list Visit) : list gauge.Step := flat_map visited_by cs.

(** The traversal meets the heading of the specification first and only
    once. *)
Definition starts_at_heading (cs : list Visit) : bool :=
  match cs with
  | VisitSpecHeading :: rest => forallb (fun c => negb (is_heading c)) rest
  | _ => false
  end.

Lemma visitAll_leaves (cs : list Visit) (v : specValidator) :
  forallb (fun c => negb (is_heading c)) cs = true ->
  visitAll cs v = validateLeaves (visited cs) v.
Proof.
  revert v. induction cs as [|c r IH]; intros v; [reflexivity |].
  cbn [forallb]. intros [Hc Hr]%andb_true_iff. cbn [validation.visitAll visited flat_map].
  rewrite validateLeaves_app.
  destruct c; cbn in Hc |- *; try done; try (by apply IH);
    unfold specValidator_ContextStep; rewrite Step_leaves;
    (destruct (validateLeaves _ v) as [v'|]; cbn; [by apply IH | done]).
Qed.

Lemma visitAll_effect (cs : list Visit) (v v' : specValidator) :
  visitAll cs v = Some v' ->
  specification v' = specification v /\
  conceptsDictionary v' = conceptsDictionary v /\
  stepValidationCache v ⊆ stepValidationCache v' /\
  dom (stepValidationCache v') = dom (stepValidationCache v) ∪ values (visited cs) /\
  runner v' = runner v ++ map validateRequest (firsts (dom (stepValidationCache v)) (visited cs)).
Proof.
  revert v. induction cs as [|c r IH]; intros v.
  - intros [= <-]. unfold values. cbn. rewrite app_nil_r. repeat split; try done. set_solver.
  - intros H2. cbn [validation.visitAll] in H2.
    destruct (visit c v) as [v1|] eqn:H1; [| done]. cbn [mbind option_bind] in H2.
    apply IH in H2 as (Hs2 & Hd2 & Hsub2 & Hdom2 & Hr2).
    assert (specification v1 = specification v /\
            conceptsDictionary v1 = conceptsDictionary v /\
            stepValidationCache v ⊆ stepValidationCache v1 /\
            dom (stepValidationCache v1) = dom (stepValidationCache v) ∪ values (visited_by c) /\
            runner v1 = runner v
                        ++ map validateRequest (firsts (dom (stepValidationCache v)) (visited_by c)))
      as (Hs1 & Hd1 & Hsub1 & Hdom1 & Hr1).
    { destruct c; cbn in H1;
        try (injection H1 as <-; unfold values; cbn; rewrite app_nil_r;
             repeat split; try done; set_solver);
        unfold specValidator_ContextStep in H1; rewrite Step_leaves in H1;
        apply validateLeaves_effect in H1 as (? & ? & ? & ? & ? & _); by repeat split. }
    change (visited (c :: r)) with (visited_by c ++ visited r).
    rewrite firsts_app, values_app, map_app, app_assoc, <- Hr1, <- Hdom1.
    repeat split; try congruence.
    + by etrans.
    + rewrite Hdom2, Hdom1. set_solver.
Qed.

(** One pass of [specValidator.validate] over a specification whose
    traversal starts at the heading. *)
Lemma validate_pass (v v' : specValidator) (spec : Specification)
    (errs : list StepValidationError) :
  specification v = Some spec ->
  starts_at_heading (Traverse spec) = true ->
  specValidator_validate unicode_ToLower unicode_ToUpper ErrorType_String
    getResponseFromRunner Traverse v = Some (errs, v') ->
  map core errs = outcomes (stepValidationCache v') (visited (Traverse spec)) /\
  Forall (fun e => step e ∈ visited (Traverse spec)) errs.
Proof.
  intros Hs Hh. unfold specValidator_validate. rewrite Hs. cbn.
  destruct (Traverse spec) as [|[] rest]; try done. cbn in Hh.
  cbn [validation.visitAll validation.visit mbind option_bind].
  rewrite (visitAll_leaves _ _ Hh).
  destruct (validateLeaves _ _) as [v1|] eqn:H1; cbn; [| done].
  intros [= <- <-].
  apply validateLeaves_effect in H1 as (_ & _ & _ & _ & _ & es & He & Hm & Hf).
  cbn in He. rewrite He. change (visited (VisitSpecHeading :: rest)) with (visited rest).
  done.
Qed.

Local Abbreviation validateEach :=
  (validation.validateEach unicode_ToLower unicode_ToUpper ErrorType_String
     getResponseFromRunner Traverse).

(** The steps a run over some specifications hands to the validator. *)
Definition run_steps (specs : list Specification) : list gauge.Step :=
  flat_map (fun spec => visited (Traverse spec)) specs.

Lemma validateEach_transcript (specs : list Specification) (status status' : validationErrors)
    (sv sv' : specValidator) :
  validateEach specs status sv = Some (status', sv') ->
  conceptsDictionary sv' = conceptsDictionary sv /\
  stepValidationCache sv ⊆ stepValidationCache sv' /\
  dom (stepValidationCache sv') = dom (stepValidationCache sv) ∪ values (run_steps specs) /\
  runner sv'
  = runner sv ++ map validateRequest (firsts (dom (stepValidationCache sv)) (run_steps specs)).
Proof.
  revert status sv. induction specs as [|spec r IH]; intros status sv.
  - intros [= <- <-]. unfold values. cbn. rewrite app_nil_r. repeat split; try done. set_solver.
  - intros H. cbn [validation.validateEach] in H.
    unfold specValidator_validate in H. cbn [with_specification specification mbind option_bind] in H.
    destruct (visitAll (Traverse spec) _) as [v1|] eqn:H1; [| done].
    cbn [mbind option_bind] in H.
    apply IH in H as (Hd2 & Hsub2 & Hdom2 & Hr2).
    apply visitAll_effect in H1 as (_ & Hd1 & Hsub1 & Hdom1 & Hr1). cbn in Hd1, Hsub1, Hdom1, Hr1.
    change (run_steps (spec :: r)) with (visited (Traverse spec) ++ run_steps r).
    rewrite firsts_app, values_app, map_app, app_assoc, <- Hr1, <- Hdom1.
    repeat split; try congruence.
    + by etrans.
    + rewrite Hdom2, Hdom1. set_solver.
Qed.

Lemma validateEach_status (specs : list Specification) (status status' : validationErrors)
    (sv sv' : specValidator) :
  NoDup (map spec_addr specs) ->
  (forall spec, spec ∈ specs -> starts_at_heading (Traverse spec) = true) ->
  validateEach specs status sv = Some (status', sv') ->
  (forall a, a ∉ map spec_addr specs -> status' !! a = status !! a) /\
  forall spec, spec ∈ specs ->
    exists errs,
      map core errs = outcomes (stepValidationCache sv') (visited (Traverse spec)) /\
      Forall (fun e => step e ∈ visited (Traverse spec)) errs /\
      status' !! spec_addr spec
      = match errs with
        | [] => status !! spec_addr spec
        | _ :: _ => Some (spec, errs)
        end.
Proof.
  revert status sv. induction specs as [|spec r IH]; intros status sv Hnd Hh.
  - intros [= <- <-]. split; [done |]. intros spec Hin. by apply elem_of_nil in Hin.
  - intros H. cbn [validation.validateEach] in H.
    destruct (specValidator_validate _ _ _ _ _ _) as [[errs v1]|] eqn:H1; [| done].
    cbn [mbind option_bind] in H.
    change (NoDup (spec_addr spec :: map spec_addr r)) in Hnd.
    apply NoDup_cons in Hnd as [Hnotin Hnd].
    pose proof (validateEach_transcript _ _ _ _ _ H) as (_ & Hsub & _ & _).
    apply IH in H as [Hout Hin]; [| done | intros; apply Hh; set_solver].
    pose proof (validate_pass (with_specification spec sv) _ spec _ eq_refl
                  (Hh spec ltac:(set_solver)) H1) as [Hm Hf].
    assert (values (visited (Traverse spec)) ⊆ dom (stepValidationCache v1)) as Hdom.
    { unfold specValidator_validate in H1. cbn [with_specification specification mbind option_bind] in H1.
      destruct (visitAll _ _) as [v2|] eqn:H2; [| done]. injection H1 as _ <-.
      apply visitAll_effect in H2 as (_ & _ & _ & -> & _). set_solver. }
    unfold validationErrors in *. split.
    + intros a Ha. cbn in Ha. apply not_elem_of_cons in Ha as [Hne Ha].
      rewrite (Hout a Ha). destruct (length errs =? 0)%nat; [done |].
      by rewrite lookup_insert_ne.
    + intros spec' [->|Hin']%elem_of_cons.
      * exists errs. rewrite <- (outcomes_weaken _ _ _ Hsub Hdom). repeat split; try done.
        rewrite (Hout _ Hnotin). destruct errs; cbn; [done |]. by rewrite lookup_insert_eq.
      * destruct (Hin spec' Hin') as (errs' & Hm' & Hf' & Hst). exists errs'.
        repeat split; try done. rewrite Hst. destruct errs'; [| done].
        destruct (length errs =? 0)%nat; [done |].
        rewrite lookup_insert_ne; [done |]. intros Heq. apply Hnotin. rewrite Heq.
        by apply list_elem_of_fmap_2.
Qed.

(** The text a request asks about, and how often a text was asked about
    on a connection. *)
Definition request_text (m : Message) : option string :=
  StepValidateRequest_ m ≫= StepText.

Definition asked (t : string) (r : Runner) : nat :=
  length (List.filter (fun m => bool_decide (request_text m = Some t)) r).

Lemma asked_firsts (seen : gset string) (ls : list gauge.Step) (t : string) :
  asked t (map validateRequest (firsts seen ls))
  = if decide (t ∈ seen) then O else if decide (t ∈ values ls) then 1%nat else O.
Proof.
  unfold asked, values. revert seen. induction ls as [|s r IH]; intros seen.
  - cbn. repeat case_decide; try done; set_solver.
  - cbn [firsts]. destruct (decide (Value s ∈ seen)) as [Hs|Hs].
    + rewrite IH. repeat case_decide; try done; set_solver.
    + cbn [map List.filter request_text validateRequest StepValidateRequest_
        StepText mbind option_bind].
      destruct (decide (Value s = t)) as [Heq|Hne].
      * rewrite bool_decide_eq_true_2 by congruence.
        cbn [length]. rewrite IH. repeat case_decide; try done; set_solver.
      * rewrite bool_decide_eq_false_2 by congruence.
        rewrite IH. cbn [map]. repeat case_decide; try done; set_solver.
Qed.

(** *** A run goes through *)

(** Every name of an error kind has a message. *)
Definition names_render : Prop :=
  forall x, is_Some (getMessage (ErrorType_String x)).

(** A message of the kind of a validation response carries the response. *)
Definition responses_carried : Prop :=
  forall m v r,
    getResponseFromRunner m v = (r, None) ->
    is_StepValidateResponse (GetMessageType r) = true ->
    is_Some (GetStepValidateResponse r).

(** The text of the parent of every step is the heading of a concept. *)
Definition parents_defined (dict : ConceptDictionary) (ls : list gauge.Step) : Prop :=
  forall s p, s ∈ ls -> Parent s = Some p -> is_Some (Search dict (Value p)).

Lemma validateLiteral_total (s : gauge.Step) (v : specValidator) :
  names_render -> responses_carried ->
  is_Some (specification v) ->
  parents_defined (conceptsDictionary v) [s] ->
  is_Some (validateLiteral s v).
Proof.
  intros Hn Hr [spec Hs] Hp. unfold validation.validateLiteral.
  assert (forall p, Parent s = Some p -> is_Some (Search (conceptsDictionary v) (Value p))) as Hp'.
  { intros p. apply Hp. set_solver. }
  destruct (stepValidationCache v !! Value s) as [[val|]|]; [| done |].
  - destruct (Parent s) as [p|]; [| by rewrite Hs].
    destruct (Hp' p eq_refl) as [cpt ->]. done.
  - unfold specValidator_validateStep.
    destruct (getResponseFromRunner _ _) as [r [e|]] eqn:Hresp; [by rewrite Hs |].
    destruct (is_StepValidateResponse _) eqn:Ht; [| by rewrite Hs].
    destruct (Hr _ _ _ Hresp Ht) as [res ->].
    destruct (negb _); [| done].
    destruct (Hn (GetErrorType (Some res))) as [msg ->]. cbn.
    destruct (Parent s) as [p|]; [| by rewrite Hs].
    destruct (Hp' p eq_refl) as [cpt ->]. done.
Qed.

Lemma validateLeaves_total (ls : list gauge.Step) (v : specValidator) :
  names_render -> responses_carried ->
  is_Some (specification v) ->
  parents_defined (conceptsDictionary v) ls ->
  is_Some (validateLeaves ls v).
Proof.
  intros Hn Hr. revert v. induction ls as [|s r IH]; intros v Hs Hp; [done |].
  cbn. destruct (validateLiteral_total s v Hn Hr Hs) as [v1 H1].
  { intros ? ? ->%list_elem_of_singleton. apply Hp. set_solver. }
  rewrite H1. cbn. apply validateLiteral_effect in H1 as (Hs1 & Hd1 & _).
  apply IH; [by rewrite Hs1 |]. rewrite Hd1. intros ? ? ?. apply Hp. set_solver.
Qed.

Lemma visitAll_total (cs : list Visit) (v : specValidator) :
  names_render -> responses_carried ->
  is_Some (specification v) ->
  parents_defined (conceptsDictionary v) (visited cs) ->
  is_Some (visitAll cs v).
Proof.
  intros Hn Hr. revert v. induction cs as [|c r IH]; intros v Hs Hp; [done |].
  cbn [validation.visitAll].
  assert (is_Some (visit c v)) as [v1 H1].
  { destruct c; cbn; try done; unfold specValidator_ContextStep; rewrite Step_leaves;
      (apply validateLeaves_total; [done | done | done |]);
      intros ? ? ?; apply Hp; unfold visited; cbn; set_solver. }
  rewrite H1. cbn [mbind option_bind].
  pose proof (visitAll_effect [c] v v1) as Heff. cbn [validation.visitAll] in Heff.
  rewrite H1 in Heff. destruct (Heff eq_refl) as (Hs1 & Hd1 & _).
  apply IH; [by rewrite Hs1 |]. rewrite Hd1. intros ? ? ?. apply Hp.
  unfold visited. cbn. set_solver.
Qed.

Lemma validateEach_total (specs : list Specification) (status : validationErrors)
    (sv : specValidator) :
  names_render -> responses_carried ->
  parents_defined (conceptsDictionary sv) (run_steps specs) ->
  is_Some (validateEach specs status sv).
Proof.
  intros Hn Hr. revert status sv. induction specs as [|spec r IH]; intros status sv Hp; [done |].
  cbn [validation.validateEach]. unfold specValidator_validate.
  cbn [with_specification specification mbind option_bind].
  destruct (visitAll_total (Traverse spec) (with_specification spec sv) Hn Hr) as [v1 H1];
    [done | |].
  { intros ? ? ?. apply Hp. unfold run_steps. cbn. set_solver. }
  rewrite H1. cbn [mbind option_bind].
  apply visitAll_effect in H1 as (_ & Hd1 & _). cbn in Hd1.
  apply IH. rewrite Hd1. intros ? ? ?. apply Hp. unfold run_steps. cbn. set_solver.
Qed.

Lemma Step_literal (s : gauge.Step) (v : specValidator) :
  IsConcept s = false -> Step s v = validateLiteral s v.
Proof. destruct s. cbn. by intros ->. Qed.

Lemma firsts_sub (seen : gset string) (ls : list gauge.Step) :
  Forall (fun l => l ∈ ls) (firsts seen ls).
Proof.
  revert seen. induction ls as [|s r IH]; intros seen; cbn; [constructor |].
  case_decide.
  - eapply Forall_impl; [apply IH |]. set_solver.
  - constructor; [set_solver |]. eapply Forall_impl; [apply IH |]. set_solver.
Qed.

Lemma slice_to_1 (c : ascii) (r : string) :
  slice_to (String c r) 1 = Some (String c EmptyString).
Proof. unfold slice_to. cbn. by destruct r. Qed.

Lemma substring_all (s : string) : String.substring 0 (String.length s) s = s.
Proof. induction s as [|c r IH]; [reflexivity |]. cbn. by rewrite IH. Qed.

Lemma slice_from_1 (c : ascii) (r : string) : slice_from (String c r) 1 = Some r.
Proof.
  unfold slice_from. cbn [String.length Nat.leb]. f_equal.
  cbn [String.substring]. rewrite Nat.sub_succ, Nat.sub_0_r. apply substring_all.
Qed.

Lemma getMessage_ascii (name : string) :
  name <> EmptyString -> isASCII name = true -> getMessage name = Some (rendered name).
Proof.
  intros Hne Ha. unfold validation.getMessage, Replace, rendered.
  destruct (string_dec "_" " ") as [|_]; [done |].
  rewrite replace_underscores by lia.
  unfold ToLower. rewrite (isASCII_underscores_to_spaces _ Ha).
  fold (lower_case (underscores_to_spaces name)).
  pose proof (isASCII_lower_case _ (isASCII_underscores_to_spaces _ Ha)) as Hl.
  destruct name as [|c r]; [done |].
  unfold underscores_to_spaces, lower_case in *. cbn [map_bytes] in *.
  set (c' := lower_byte _) in *. set (r' := map_bytes lower_byte _) in *.
  rewrite slice_to_1, slice_from_1.
  cbn [isASCII] in Hl. apply andb_true_iff in Hl as [Hc _].
  unfold ToUpper. cbn [isASCII]. rewrite Hc. reflexivity.
Qed.

(** *** The visitor and the answers of the runner *)

(** C9: for the name of an error kind (a string of ASCII characters that
    is not empty) [getMessage] gives the name with every underscore turned
    into a space, in lower case, its first character in upper case; and
    the error [validateStep] makes of an answer of the runner that says the
    step is not valid carries this message beside the error kind of the
    answer itself, untouched. *)
Theorem getMessage_presentational :
  (forall name : string,
     name <> EmptyString -> isASCII name = true ->
     getMessage name = Some (rendered name))
  /\
  (forall (s : gauge.Step) (v : specValidator) (r : option Message)
          (res : StepValidateResponse) (file : string),
     getResponseFromRunner (validateRequest s) v = (r, None) ->
     is_StepValidateResponse (GetMessageType r) = true ->
     GetStepValidateResponse r = Some res ->
     GetIsValid (Some res) = false ->
     ErrorType_String (GetErrorType (Some res)) <> EmptyString ->
     isASCII (ErrorType_String (GetErrorType (Some res))) = true ->
     attributed s (specification v) (conceptsDictionary v) = Some file ->
     validateStep s v
     = Some (Some {| step := s;
                     message := rendered (ErrorType_String (GetErrorType (Some res)));
                     fileName := file;
                     errorType := ErrorType res |},
             sent (validateRequest s) v)).
Proof.
  split; [exact getMessage_ascii |].
  intros s v r res file Hr Ht Hres Hv Hne Ha Hf.
  apply (validateStep_invalid s v r res _ file Hr Ht Hres Hv); [| exact Hf].
  by apply getMessage_ascii.
Qed.

(** C10: when the round trip to the runner fails in the transport, the
    error of the step carries the text of the transport error, no error
    kind, and the file of the specification being validated, whatever the
    parent of the step; an answer of the runner that says the step is not
    valid is attributed to the file of the concept of the parent instead. *)
Theorem transport_failure (s : gauge.Step) (v : specValidator) (r : option Message)
    (e : string) (spec : Specification) :
  getResponseFromRunner (validateRequest s) v = (r, Some e) ->
  specification v = Some spec ->
  validateStep s v
  = Some (Some {| step := s; message := e; fileName := FileName spec; errorType := None |},
          sent (validateRequest s) v)
  /\
  (forall (v2 : specValidator) (r2 : option Message) (res : StepValidateResponse)
          (msg : string) (p : gauge.Step) (cpt : Concept),
     Parent s = Some p ->
     Search (conceptsDictionary v2) (Value p) = Some cpt ->
     getResponseFromRunner (validateRequest s) v2 = (r2, None) ->
     is_StepValidateResponse (GetMessageType r2) = true ->
     GetStepValidateResponse r2 = Some res ->
     GetIsValid (Some res) = false ->
     getMessage (ErrorType_String (GetErrorType (Some res))) = Some msg ->
     validateStep s v2
     = Some (Some {| step := s; message := msg; fileName := ConceptFileName cpt;
                     errorType := ErrorType res |},
             sent (validateRequest s) v2)).
Proof.
  intros Hr Hs. split; [by apply (validateStep_transport s v r) |].
  intros v2 r2 res msg p cpt Hp Hc Hr2 Ht Hres Hv Hm.
  apply (validateStep_invalid s v2 r2 res msg _ Hr2 Ht Hres Hv Hm).
  unfold attributed. by rewrite Hp, Hc.
Qed.

(** C6: when the answer of the runner arrives and is not of the kind of a
    validation response, [validateStep] returns the error of the step with
    the fixed message, the error kind [invalidResponse] (-1) and the file
    of the specification being validated; the visitor records it for this
    step, keeps it in the cache and goes on with the calls that follow. *)
Theorem protocol_violation (s : gauge.Step) (v : specValidator) (r : option Message)
    (spec : Specification) :
  getResponseFromRunner (validateRequest s) v = (r, None) ->
  is_StepValidateResponse (GetMessageType r) = false ->
  specification v = Some spec ->
  validateStep s v
  = Some (Some {| step := s;
                  message := "Invalid response from runner for Validation request";
                  fileName := FileName spec;
                  errorType := Some (-1) |},
          sent (validateRequest s) v)
  /\
  (IsConcept s = false ->
   stepValidationCache v !! Value s = None ->
   exists v',
     Step s v = Some v' /\
     stepValidationErrors v'
     = stepValidationErrors v
       ++ [{| step := s;
              message := "Invalid response from runner for Validation request";
              fileName := FileName spec;
              errorType := Some (-1) |}] /\
     forall rest : list Visit, visitAll (VisitStep s :: rest) v = visitAll rest v').
Proof.
  intros Hr Ht Hs.
  pose proof (validateStep_protocol s v r spec Hr Ht Hs) as Hv.
  split; [exact Hv |]. intros Hc Hmiss.
  eexists. rewrite (Step_literal _ _ Hc). unfold validation.validateLiteral.
  rewrite Hmiss, Hv. cbn [mbind option_bind]. split; [reflexivity |]. split; [reflexivity |].
  intros rest. cbn [validation.visitAll validation.visit].
  rewrite (Step_literal _ _ Hc). unfold validation.validateLiteral.
  rewrite Hmiss, Hv. reflexivity.
Qed.

(** C2: a step that is no concept and has a parent (it was reached through
    a concept) gets, when the runner says it is not valid, an error whose
    file is the file of the concept the dictionary holds for the text of
    the parent; so it is on a fresh answer of the runner and on a hit in
    the cache, whatever specification is being validated. *)
Theorem concept_attribution (s p : gauge.Step) (cpt : Concept) (v : specValidator) :
  IsConcept s = false ->
  Parent s = Some p ->
  Search (conceptsDictionary v) (Value p) = Some cpt ->
  (forall (r : option Message) (res : StepValidateResponse) (msg : string),
     stepValidationCache v !! Value s = None ->
     getResponseFromRunner (validateRequest s) v = (r, None) ->
     is_StepValidateResponse (GetMessageType r) = true ->
     GetStepValidateResponse r = Some res ->
     GetIsValid (Some res) = false ->
     getMessage (ErrorType_String (GetErrorType (Some res))) = Some msg ->
     exists v',
       Step s v = Some v' /\
       stepValidationErrors v'
       = stepValidationErrors v
         ++ [{| step := s; message := msg; fileName := ConceptFileName cpt;
                errorType := ErrorType res |}] /\
       stepValidationCache v' !! Value s
       = Some (Some {| step := s; message := msg; fileName := ConceptFileName cpt;
                       errorType := ErrorType res |}))
  /\
  (forall val : StepValidationError,
     stepValidationCache v !! Value s = Some (Some val) ->
     exists v',
       Step s v = Some v' /\
       runner v' = runner v /\
       stepValidationErrors v'
       = stepValidationErrors v
         ++ [{| step := s; message := message val; fileName := ConceptFileName cpt;
                errorType := errorType val |}]).
Proof.
  intros Hc Hp Hd. rewrite (Step_literal _ _ Hc). unfold validation.validateLiteral. split.
  - intros r res msg Hmiss Hr Ht Hres Hv Hm.
    assert (attributed s (specification v) (conceptsDictionary v) = Some (ConceptFileName cpt))
      as Hf by (unfold attributed; by rewrite Hp, Hd).
    rewrite Hmiss, (validateStep_invalid s v r res msg _ Hr Ht Hres Hv Hm Hf).
    cbn [mbind option_bind]. eexists. split; [reflexivity |]. cbn.
    split; [reflexivity |]. by rewrite lookup_insert_eq.
  - intros val Hhit. rewrite Hhit, Hp, Hd. cbn [mbind option_bind].
    eexists. split; [reflexivity |]. by split.
Qed.

(** C5: [Step] on a step is the validation of the steps that are no
    concept under it, in order, through the bodies of the concepts to any
    depth; a concept hands on to the steps of its body only.  Hence every
    request to the runner, every recorded error and every new key of the
    cache comes from a step that is no concept. *)
Theorem concept_steps_expanded (s : gauge.Step) (v : specValidator) :
  Step s v = validateLeaves (leaves s) v
  /\ (IsConcept s = true ->
      leaves s = flat_map leaves (ConceptSteps s) /\
      Step s v = foldl (fun acc c => v' ← acc; Step c v') (Some v) (ConceptSteps s))
  /\ (forall l, l ∈ leaves s -> IsConcept l = false)
  /\ (forall v', Step s v = Some v' ->
      exists (asked_for : list gauge.Step) (es : list StepValidationError),
        runner v' = runner v ++ map validateRequest asked_for /\
        Forall (fun l => l ∈ leaves s /\ IsConcept l = false) asked_for /\
        stepValidationErrors v' = stepValidationErrors v ++ es /\
        Forall (fun e => step e ∈ leaves s /\ IsConcept (step e) = false) es /\
        dom (stepValidationCache v') = dom (stepValidationCache v) ∪ values (leaves s)).
Proof.
  split; [apply Step_leaves |]. split; [| split; [apply leaves_not_concept |]].
  - intros Hc. split; [by apply leaves_concept | by apply Step_concept].
  - intros v'. rewrite Step_leaves. intros H.
    apply validateLeaves_effect in H as (_ & _ & _ & Hdom & Hr & es & He & _ & Hf).
    exists (firsts (dom (stepValidationCache v)) (leaves s)), es. repeat split; try done.
    + eapply Forall_impl; [apply firsts_sub |]. intros l Hl. split; [done |].
      by apply (leaves_not_concept s).
    + eapply Forall_impl; [exact Hf |]. intros e Hl. split; [done |].
      by apply (leaves_not_concept s).
Qed.

Variable Manifest : Type.

Local Abbreviation validate :=
  (validator_validate unicode_ToLower unicode_ToUpper ErrorType_String
     getResponseFromRunner Traverse Manifest).

(** C1: in a run of [validator.validate], the requests written to the
    runner are those for the first step of each text among the steps the
    run visits (so each text is asked about once, however many steps carry
    it), every text visited ends up in the cache, and the errors returned
    for a specification are the outcomes the cache holds for the texts of
    its steps: steps of one text get the same message and error kind, or
    none of them gets an error.  The run goes through when every name of
    an error kind has a message, every validation response carries its
    response and the parents of the steps are in the dictionary. *)
Theorem memoization (v : validator Manifest) :
  (names_render -> responses_carried ->
   parents_defined (validator_conceptsDictionary v) (run_steps (specsToExecute v)) ->
   is_Some (validate v))
  /\
  (forall (status : validationErrors) (sv : specValidator),
     validate v = Some (status, sv) ->
     runner sv
     = validator_runner v ++ map validateRequest (firsts ∅ (run_steps (specsToExecute v)))
     /\ (forall s, s ∈ run_steps (specsToExecute v) ->
          asked (Value s) (map validateRequest (firsts ∅ (run_steps (specsToExecute v)))) = 1%nat
          /\ is_Some (stepValidationCache sv !! Value s))
     /\ (NoDup (map spec_addr (specsToExecute v)) ->
         (forall spec, spec ∈ specsToExecute v -> starts_at_heading (Traverse spec) = true) ->
         forall spec, spec ∈ specsToExecute v ->
           exists errs,
             map core errs = outcomes (stepValidationCache sv) (visited (Traverse spec)) /\
             status !! spec_addr spec
             = match errs with
               | [] => None
               | _ :: _ => Some (spec, errs)
               end)).
Proof.
  unfold validator_validate. split.
  - intros Hn Hr Hp. by apply validateEach_total.
  - intros status sv H.
    pose proof (validateEach_transcript _ _ _ _ _ H) as (_ & _ & Hdom & Hr).
    cbn [runner stepValidationCache] in Hdom, Hr. rewrite dom_empty_L in Hdom, Hr.
    split; [exact Hr |]. split.
    + intros s Hs.
      assert (Value s ∈ values (run_steps (specsToExecute v))) as Hin.
      { unfold values. apply elem_of_list_to_set. by apply list_elem_of_fmap_2. }
      split.
      * rewrite asked_firsts. repeat case_decide; try done; set_solver.
      * apply elem_of_dom. rewrite Hdom. set_solver.
    + intros Hnd Hh spec Hin.
      apply validateEach_status in H as [_ Hst]; [| done | done].
      destruct (Hst spec Hin) as (errs & Hm & _ & Hl). exists errs. split; [done |].
      rewrite Hl. destruct errs; [| done]. apply lookup_empty.
Qed.

End ValidatorProperties.

(** ** The error maps *)

Section Aggregator.

(** The steps the two fill functions look up, in their order: the steps of
    the body of a concept before the concept itself. *)
Fixpoint walk (s : gauge.Step) : list gauge.Step :=
  (if IsConcept s then
     (fix each (cs : list gauge.Step) : list gauge.Step :=
        match cs with
        | [] => []
        | c :: cs' => walk c ++ each cs'
        end) (ConceptSteps s)
   else []) ++ [s].

(** The errors the map of the steps holds for the steps under [steps]. *)
Definition failing (stepErrs : gmap addr StepValidationError) (steps : list gauge.Step)
  : list StepValidationError :=
  omap (fun s => stepErrs !! step_addr s) (flat_map walk steps).

Lemma walk_unfold (s : gauge.Step) :
  walk s = (if IsConcept s then flat_map walk (ConceptSteps s) else []) ++ [s].
Proof.
  destruct s as [a l v t args c cs p]. cbn. by destruct c.
Qed.

Lemma failing_app (F : gmap addr StepValidationError) (l1 l2 : list gauge.Step) :
  failing F (l1 ++ l2) = failing F l1 ++ failing F l2.
Proof. unfold failing. by rewrite flat_map_app, omap_app. Qed.

Lemma failing_cons (F : gmap addr StepValidationError) (s : gauge.Step) (r : list gauge.Step) :
  failing F (s :: r)
  = (if IsConcept s then failing F (ConceptSteps s) else [])
    ++ match F !! step_addr s with Some e => [e] | None => [] end ++ failing F r.
Proof.
  unfold failing. cbn [flat_map]. rewrite omap_app, walk_unfold, omap_app, <- app_assoc.
  f_equal. by destruct (IsConcept s).
Qed.

(** The errors of a scenario, one after the other. *)
Definition add_ScenarioErrs (scenario : Scenario) (errs : list StepValidationError)
    (errMap : ValidationErrMaps) : ValidationErrMaps :=
  fold_left (fun em err => add_ScenarioErr scenario err em) errs errMap.

Lemma add_ScenarioErrs_StepErrs scenario errs errMap :
  StepErrs (add_ScenarioErrs scenario errs errMap) = StepErrs errMap.
Proof.
  unfold add_ScenarioErrs. revert errMap.
  induction errs as [|e r IH]; intros errMap; [done |]. cbn. by rewrite IH.
Qed.

Lemma fillScenarioErrors_step_flat (scenario : Scenario) (s : gauge.Step)
    (errMap : ValidationErrMaps) :
  fillScenarioErrors_step scenario s errMap
  = add_ScenarioErrs scenario (failing (StepErrs errMap) [s]) errMap.
Proof.
  revert errMap. induction s as [s IH] using Step_nested_ind. intros errMap.
  rewrite failing_cons. unfold failing at 2. cbn [flat_map omap]. rewrite app_nil_r.
  unfold add_ScenarioErrs. rewrite fold_left_app.
  destruct s as [a l v t args c cs p]. cbn [fillScenarioErrors_step IsConcept ConceptSteps step_addr] in *.
  assert ((if c then
             (fix each (cs0 : list gauge.Step) (em : ValidationErrMaps) {struct cs0} :=
                match cs0 with
                | [] => em
                | c0 :: cs' => each cs' (fillScenarioErrors_step scenario c0 em)
                end) cs errMap
           else errMap)
          = add_ScenarioErrs scenario (if c then failing (StepErrs errMap) cs else []) errMap)
    as ->.
  { destruct c; [| done]. clear -IH. revert errMap.
    induction IH as [|x r Hx Hr IHr]; intros errMap; [done |].
    rewrite Hx, IHr, add_ScenarioErrs_StepErrs.
    change (x :: r) with ([x] ++ r). rewrite failing_app.
    unfold add_ScenarioErrs. by rewrite fold_left_app. }
  fold (add_ScenarioErrs scenario (if c then failing (StepErrs errMap) cs else []) errMap).
  rewrite add_ScenarioErrs_StepErrs. by destruct (StepErrs errMap !! a).
Qed.

Lemma fillScenarioErrors_flat (scenario : Scenario) (errMap : ValidationErrMaps)
    (steps : list gauge.Step) :
  fillScenarioErrors scenario errMap steps
  = add_ScenarioErrs scenario (failing (StepErrs errMap) steps) errMap.
Proof.
  unfold fillScenarioErrors. revert errMap.
  induction steps as [|s r IH]; intros errMap; [done |].
  cbn [fold_left]. rewrite fillScenarioErrors_step_flat, IH, add_ScenarioErrs_StepErrs.
  change (s :: r) with ([s] ++ r). rewrite failing_app.
  unfold add_ScenarioErrs. by rewrite fold_left_app.
Qed.

(** What [fillSpecErrors] does with one failing step: its error goes to
    the list of the specification and to every scenario without an entry. *)
Definition add_ContextErr (spec : Specification) (err : StepValidationError)
    (errMap : ValidationErrMaps) : ValidationErrMaps :=
  propagate err (Scenarios spec) (add_SpecErrs spec [err] errMap).

Definition add_ContextErrs (spec : Specification) (errs : list StepValidationError)
    (errMap : ValidationErrMaps) : ValidationErrMaps :=
  fold_left (fun em err => add_ContextErr spec err em) errs errMap.

Lemma propagate_lookup (err : StepValidationError) (scenarios : list Scenario)
    (errMap : ValidationErrMaps) :
  SpecErrs (propagate err scenarios errMap) = SpecErrs errMap /\
  StepErrs (propagate err scenarios errMap) = StepErrs errMap /\
  forall a,
    ScenarioErrs (propagate err scenarios errMap) !! a
    = match ScenarioErrs errMap !! a with
      | Some l => Some l
      | None => if decide (a ∈ map scenario_addr scenarios) then Some [err] else None
      end.
Proof.
  unfold propagate. revert errMap. induction scenarios as [|scn r IH]; intros errMap.
  - cbn. repeat split. intros a. destruct (ScenarioErrs errMap !! a); [done |].
    case_decide; [| done]. by apply elem_of_nil in H.
  - cbn [fold_left map].
    destruct (IH (match ScenarioErrs errMap !! scenario_addr scn with
                  | Some _ => errMap
                  | None => add_ScenarioErr scn err errMap
                  end)) as (H1 & H2 & H3).
    rewrite H1, H2. split; [by destruct (ScenarioErrs errMap !! scenario_addr scn) |].
    split; [by destruct (ScenarioErrs errMap !! scenario_addr scn) |].
    intros a. rewrite H3.
    destruct (ScenarioErrs errMap !! scenario_addr scn) as [l|] eqn:E.
    + destruct (ScenarioErrs errMap !! a) eqn:Ea; [done |].
      repeat case_decide; try done; set_solver.
    + cbn [add_ScenarioErr ScenarioErrs]. unfold append_at. rewrite E. cbn.
      destruct (decide (a = scenario_addr scn)) as [->|Hne].
      * rewrite lookup_insert_eq, E. case_decide; [done | set_solver].
      * rewrite lookup_insert_ne by done. destruct (ScenarioErrs errMap !! a); [done |].
        repeat case_decide; try done; set_solver.
Qed.

Lemma add_ContextErrs_StepErrs spec errs errMap :
  StepErrs (add_ContextErrs spec errs errMap) = StepErrs errMap.
Proof.
  unfold add_ContextErrs. revert errMap.
  induction errs as [|e r IH]; intros errMap; [done |]. cbn [fold_left]. rewrite IH.
  unfold add_ContextErr. by destruct (propagate_lookup e (Scenarios spec) (add_SpecErrs spec [e] errMap)) as (_ & -> & _).
Qed.

Lemma fillSpecErrors_step_flat (spec : Specification) (s : gauge.Step)
    (errMap : ValidationErrMaps) :
  fillSpecErrors_step spec s errMap
  = add_ContextErrs spec (failing (StepErrs errMap) [s]) errMap.
Proof.
  revert errMap. induction s as [s IH] using Step_nested_ind. intros errMap.
  rewrite failing_cons. unfold failing at 2. cbn [flat_map omap]. rewrite app_nil_r.
  unfold add_ContextErrs. rewrite fold_left_app.
  destruct s as [a l v t args c cs p]. cbn [fillSpecErrors_step IsConcept ConceptSteps step_addr] in *.
  assert ((if c then
             (fix each (cs0 : list gauge.Step) (em : ValidationErrMaps) {struct cs0} :=
                match cs0 with
                | [] => em
                | c0 :: cs' => each cs' (fillSpecErrors_step spec c0 em)
                end) cs errMap
           else errMap)
          = add_ContextErrs spec (if c then failing (StepErrs errMap) cs else []) errMap)
    as ->.
  { destruct c; [| done]. clear -IH. revert errMap.
    induction IH as [|x r Hx Hr IHr]; intros errMap; [done |].
    rewrite Hx, IHr, add_ContextErrs_StepErrs.
    change (x :: r) with ([x] ++ r). rewrite failing_app.
    unfold add_ContextErrs. by rewrite fold_left_app. }
  fold (add_ContextErrs spec (if c then failing (StepErrs errMap) cs else []) errMap).
  rewrite add_ContextErrs_StepErrs. by destruct (StepErrs errMap !! a).
Qed.

Lemma fillSpecErrors_flat (spec : Specification) (errMap : ValidationErrMaps)
    (steps : list gauge.Step) :
  fillSpecErrors spec errMap steps
  = add_ContextErrs spec (failing (StepErrs errMap) steps) errMap.
Proof.
  unfold fillSpecErrors. revert errMap.
  induction steps as [|s r IH]; intros errMap; [done |].
  cbn [fold_left]. rewrite fillSpecErrors_step_flat, IH, add_ContextErrs_StepErrs.
  change (s :: r) with ([s] ++ r). rewrite failing_app.
  unfold add_ContextErrs. by rewrite fold_left_app.
Qed.

(** The list under a key after [errs] have been appended to it one at a
    time. *)
Definition appended (old : option (list StepValidationError)) (errs : list StepValidationError)
  : option (list StepValidationError) :=
  match errs with
  | [] => old
  | _ :: _ => Some (default [] old ++ errs)
  end.

Lemma appended_cons old e r : appended (Some (default [] old ++ [e])) r = appended old (e :: r).
Proof. destruct r; cbn; [done |]. by rewrite <- app_assoc. Qed.

Lemma add_ScenarioErrs_lookup (scenario : Scenario) (errs : list StepValidationError)
    (errMap : ValidationErrMaps) :
  SpecErrs (add_ScenarioErrs scenario errs errMap) = SpecErrs errMap /\
  forall a,
    ScenarioErrs (add_ScenarioErrs scenario errs errMap) !! a
    = if decide (a = scenario_addr scenario)
      then appended (ScenarioErrs errMap !! a) errs
      else ScenarioErrs errMap !! a.
Proof.
  unfold add_ScenarioErrs. revert errMap. induction errs as [|e r IH]; intros errMap.
  - split; [done |]. intros a. by case_decide.
  - cbn [fold_left]. destruct (IH (add_ScenarioErr scenario e errMap)) as [H1 H2].
    split; [by rewrite H1 |]. intros a. rewrite H2.
    cbn [add_ScenarioErr ScenarioErrs]. unfold append_at. case_decide as Ha.
    + subst a. rewrite lookup_insert_eq. apply appended_cons.
    + by rewrite lookup_insert_ne.
Qed.

Lemma add_ContextErrs_lookup (spec : Specification) (errs : list StepValidationError)
    (errMap : ValidationErrMaps) :
  (forall b,
     SpecErrs (add_ContextErrs spec errs errMap) !! b
     = if decide (b = spec_addr spec)
       then appended (SpecErrs errMap !! b) errs
       else SpecErrs errMap !! b) /\
  forall a,
    ScenarioErrs (add_ContextErrs spec errs errMap) !! a
    = match ScenarioErrs errMap !! a with
      | Some l => Some l
      | None =>
          match errs with
          | e :: _ =>
              if decide (a ∈ map scenario_addr (Scenarios spec)) then Some [e] else None
          | [] => None
          end
      end.
Proof.
  unfold add_ContextErrs. revert errMap. induction errs as [|e r IH]; intros errMap.
  - cbn [fold_left]. split; [intros b; by case_decide |].
    intros a. by destruct (ScenarioErrs errMap !! a).
  - cbn [fold_left]. destruct (IH (add_ContextErr spec e errMap)) as [H1 H2].
    unfold add_ContextErr in *.
    destruct (propagate_lookup e (Scenarios spec) (add_SpecErrs spec [e] errMap))
      as (Hs & _ & Hc).
    split.
    + intros b. rewrite H1, Hs. cbn [add_SpecErrs SpecErrs]. unfold append_at.
      case_decide as Hb.
      * subst b. rewrite lookup_insert_eq. apply appended_cons.
      * by rewrite lookup_insert_ne.
    + intros a. rewrite H2, Hc. cbn [add_SpecErrs ScenarioErrs].
      destruct (ScenarioErrs errMap !! a); [done |].
      destruct (decide (a ∈ map scenario_addr (Scenarios spec))); [done |]. by destruct r.
Qed.

(** The map of the steps after the errors of an entry have been put in. *)
Definition loaded (errors : list StepValidationError) (F : gmap addr StepValidationError)
  : gmap addr StepValidationError :=
  fold_left (fun m e => <[step_addr (step e) := e]> m) errors F.

Lemma load_errors (errors : list StepValidationError) (errMap : ValidationErrMaps) :
  fold_left (fun em err => add_StepErr err em) errors errMap
  = {| SpecErrs := SpecErrs errMap;
       ScenarioErrs := ScenarioErrs errMap;
       StepErrs := loaded errors (StepErrs errMap) |}.
Proof.
  unfold loaded. revert errMap. induction errors as [|e r IH]; intros errMap.
  - by destruct errMap.
  - cbn [fold_left]. by rewrite IH.
Qed.

Definition has_failing (F : gmap addr StepValidationError) (scenario : Scenario) : bool :=
  match failing F (Steps scenario) with
  | [] => false
  | _ :: _ => true
  end.

(** The loop over the scenarios, from any count. *)
Definition countSkipped_from (scenarios : list Scenario) (errMap : ValidationErrMaps) (k : nat)
  : ValidationErrMaps * nat :=
  fold_left
    (fun '(em, skippedScnInSpec) scenario =>
       let em' := fillScenarioErrors scenario em (Steps scenario) in
       (em', match ScenarioErrs em' !! scenario_addr scenario with
             | Some _ => S skippedScnInSpec
             | None => skippedScnInSpec
             end)) scenarios (errMap, k).

Lemma countSkipped_frame (scenarios : list Scenario) (errMap : ValidationErrMaps) (k : nat) :
  SpecErrs (countSkipped_from scenarios errMap k).1 = SpecErrs errMap /\
  StepErrs (countSkipped_from scenarios errMap k).1 = StepErrs errMap /\
  forall a, a ∉ map scenario_addr scenarios ->
    ScenarioErrs (countSkipped_from scenarios errMap k).1 !! a = ScenarioErrs errMap !! a.
Proof.
  unfold countSkipped_from. revert errMap k.
  induction scenarios as [|scn r IH]; intros errMap k; [done |].
  cbn [fold_left]. rewrite fillScenarioErrors_flat.
  set (em1 := add_ScenarioErrs scn _ errMap). set (k1 := match _ with Some _ => _ | None => _ end).
  destruct (IH em1 k1) as (H1 & H2 & H3). rewrite H1, H2.
  destruct (add_ScenarioErrs_lookup scn (failing (StepErrs errMap) (Steps scn)) errMap) as [Hs Hl].
  split; [done |]. split; [apply add_ScenarioErrs_StepErrs |].
  intros a Ha. cbn [map] in Ha. apply not_elem_of_cons in Ha as [Hne Ha].
  rewrite (H3 a Ha). subst em1. rewrite Hl. by case_decide.
Qed.

Lemma countSkipped_exact (scenarios : list Scenario) (errMap : ValidationErrMaps) (k : nat) :
  NoDup (map scenario_addr scenarios) ->
  (forall scn, scn ∈ scenarios -> ScenarioErrs errMap !! scenario_addr scn = None) ->
  (forall scn, scn ∈ scenarios ->
     ScenarioErrs (countSkipped_from scenarios errMap k).1 !! scenario_addr scn
     = appended None (failing (StepErrs errMap) (Steps scn))) /\
  (countSkipped_from scenarios errMap k).2
  = (k + length (List.filter (has_failing (StepErrs errMap)) scenarios))%nat.
Proof.
  revert errMap k. induction scenarios as [|scn r IH]; intros errMap k Hnd Hfresh.
  - split; [| cbn; lia]. intros scn Hin. by apply elem_of_nil in Hin.
  - change (NoDup (scenario_addr scn :: map scenario_addr r)) in Hnd.
    apply NoDup_cons in Hnd as [Hnotin Hnd].
    unfold countSkipped_from. cbn [fold_left]. rewrite fillScenarioErrors_flat.
    set (em1 := add_ScenarioErrs scn _ errMap).
    set (k1 := match _ with Some _ => _ | None => _ end).
    fold (countSkipped_from r em1 k1).
    destruct (add_ScenarioErrs_lookup scn (failing (StepErrs errMap) (Steps scn)) errMap) as [Hs Hl].
    fold em1 in Hs, Hl.
    assert (StepErrs em1 = StepErrs errMap) as HF by apply add_ScenarioErrs_StepErrs.
    destruct (IH em1 k1 Hnd) as [Hin Hk].
    { intros s' Hs'. rewrite Hl. case_decide as Heq; [| apply Hfresh; set_solver].
      exfalso. apply Hnotin. rewrite <- Heq. by apply list_elem_of_fmap_2. }
    rewrite HF in Hin, Hk. split.
    + intros s' [->|Hs']%elem_of_cons; [| by apply Hin].
      destruct (countSkipped_frame r em1 k1) as (_ & _ & Hfr). rewrite (Hfr _ Hnotin), Hl.
      rewrite decide_True by done. by rewrite (Hfresh scn) by set_solver.
    + rewrite Hk. cbn [List.filter]. subst k1. rewrite Hl, decide_True by done.
      rewrite (Hfresh scn) by set_solver. unfold has_failing.
      destruct (failing (StepErrs errMap) (Steps scn)); cbn; lia.
Qed.

Lemma filter_all {A} (f : A -> bool) (l : list A) :
  (length (List.filter f l) =? length l)%nat = forallb f l.
Proof.
  induction l as [|x r IH]; [done |]. cbn. destruct (f x); cbn; [exact IH |].
  apply Nat.eqb_neq. pose proof (List.filter_length_le f r). lia.
Qed.

Definition scenario_addrs (spec : Specification) : list addr :=
  map scenario_addr (Scenarios spec).

Lemma getErrMap_entry_frame (spec : Specification) (errors : list StepValidationError)
    (errMap : ValidationErrMaps) :
  StepErrs (getErrMap_entry (spec, errors) errMap) = loaded errors (StepErrs errMap) /\
  (forall b, b <> spec_addr spec ->
     SpecErrs (getErrMap_entry (spec, errors) errMap) !! b = SpecErrs errMap !! b) /\
  (forall a, a ∉ scenario_addrs spec ->
     ScenarioErrs (getErrMap_entry (spec, errors) errMap) !! a = ScenarioErrs errMap !! a).
Proof.
  unfold getErrMap_entry, scenario_addrs. rewrite load_errors.
  set (em1 := mkValidationErrMaps _ _ _).
  change (countSkipped (Scenarios spec) em1) with (countSkipped_from (Scenarios spec) em1 O).
  pose proof (countSkipped_frame (Scenarios spec) em1 O) as (H1 & H2 & H3).
  destruct (countSkipped_from (Scenarios spec) em1 O) as [em2 k]. cbn [fst] in H1, H2, H3.
  match goal with |- context [fillSpecErrors spec ?e _] => set (em3 := e) end.
  assert (StepErrs em3 = StepErrs em2 /\ ScenarioErrs em3 = ScenarioErrs em2 /\
          forall b, b <> spec_addr spec -> SpecErrs em3 !! b = SpecErrs em2 !! b)
    as (H4 & H5 & H6).
  { subst em3. destruct (_ && _); [| done]. destruct (Scenarios spec); [done |].
    cbn. repeat split. intros b Hb. unfold append_at. by rewrite lookup_insert_ne. }
  rewrite fillSpecErrors_flat.
  destruct (add_ContextErrs_lookup spec
              (failing (StepErrs em3) (Contexts spec ++ TearDownSteps spec)) em3) as [H7 H8].
  rewrite add_ContextErrs_StepErrs. split; [by rewrite H4, H2 |]. split.
  - intros b Hb. rewrite H7, decide_False by done. by rewrite H6, H1.
  - intros a Ha. rewrite H8, H5, (H3 a Ha). change (ScenarioErrs em1) with (ScenarioErrs errMap).
    destruct (ScenarioErrs errMap !! a); [done |].
    destruct (failing _ _); [done |]. by rewrite decide_False.
Qed.

(** The errors of the first scenario when every scenario has a failing
    step, none otherwise. *)
Definition rolled_up (F : gmap addr StepValidationError) (spec : Specification)
  : list StepValidationError :=
  match Scenarios spec with
  | first :: _ =>
      if forallb (has_failing F) (Scenarios spec) then failing F (Steps first) else []
  | [] => []
  end.

(** What one entry of the map of the errors leaves in the error maps, for
    a specification and scenarios that have no entry yet. *)
Lemma getErrMap_entry_exact (spec : Specification) (errors : list StepValidationError)
    (errMap : ValidationErrMaps) :
  NoDup (scenario_addrs spec) ->
  (forall a, a ∈ scenario_addrs spec -> ScenarioErrs errMap !! a = None) ->
  SpecErrs errMap !! spec_addr spec = None ->
  let F := loaded errors (StepErrs errMap) in
  let ctx := failing F (Contexts spec ++ TearDownSteps spec) in
  SpecErrs (getErrMap_entry (spec, errors) errMap) !! spec_addr spec
  = appended None (rolled_up F spec ++ ctx) /\
  forall scn, scn ∈ Scenarios spec ->
    ScenarioErrs (getErrMap_entry (spec, errors) errMap) !! scenario_addr scn
    = match failing F (Steps scn) with
      | [] => match ctx with [] => None | e :: _ => Some [e] end
      | l => Some l
      end.
Proof.
  intros Hnd Hfresh Hspec F ctx. subst ctx.
  unfold getErrMap_entry, scenario_addrs in *. rewrite load_errors.
  set (em1 := mkValidationErrMaps _ _ _).
  change (countSkipped (Scenarios spec) em1) with (countSkipped_from (Scenarios spec) em1 O).
  pose proof (countSkipped_frame (Scenarios spec) em1 O) as (H1 & H2 & _).
  destruct (countSkipped_exact (Scenarios spec) em1 O Hnd) as [H3 Hk].
  { intros scn Hin. cbn. apply Hfresh. by apply list_elem_of_fmap_2. }
  destruct (countSkipped_from (Scenarios spec) em1 O) as [em2 k].
  cbn [fst snd] in H1, H2, H3, Hk. change (StepErrs em1) with F in *.
  rewrite Hk, Nat.add_0_l, filter_all.
  match goal with |- context [fillSpecErrors spec ?e _] => set (em3 := e) end.
  assert (StepErrs em3 = F /\ ScenarioErrs em3 = ScenarioErrs em2 /\
          SpecErrs em3 !! spec_addr spec = appended None (rolled_up F spec)) as (H4 & H5 & H6).
  { subst em3. unfold rolled_up. destruct (Scenarios spec) as [|first rest] eqn:Hscns.
    - cbn. by rewrite H1.
    - cbn [length Nat.ltb Nat.leb andb]. destruct (forallb _ _) eqn:Hall.
      + cbn [add_SpecErrs SpecErrs ScenarioErrs StepErrs]. repeat split; [done |].
        unfold append_at. rewrite lookup_insert_eq, H1. cbn [SpecErrs em1]. rewrite Hspec.
        rewrite (H3 first) by set_solver. cbn [forallb] in Hall.
        apply andb_true_iff in Hall as [Hfirst _]. unfold has_failing in Hfirst.
        by destruct (failing F (Steps first)).
      + repeat split; [done |]. by rewrite H1. }
  rewrite fillSpecErrors_flat, H4.
  destruct (add_ContextErrs_lookup spec
              (failing F (Contexts spec ++ TearDownSteps spec)) em3) as [H7 H8].
  split.
  - rewrite H7, decide_True, H6 by done.
    destruct (rolled_up F spec), (failing F (Contexts spec ++ TearDownSteps spec)); cbn;
      by rewrite ?app_nil_r.
  - intros scn Hin. rewrite H8, H5, (H3 scn Hin).
    destruct (failing F (Steps scn)); cbn; [| done].
    destruct (failing F (Contexts spec ++ TearDownSteps spec)); [done |].
    rewrite decide_True; [done |]. by apply list_elem_of_fmap_2.
Qed.

(** [getErrMap] from any maps. *)
Definition getErrMap_from (entries : list (Specification * list StepValidationError))
    (errMap : ValidationErrMaps) : ValidationErrMaps :=
  fold_left (fun em entry => getErrMap_entry entry em) entries errMap.

Definition entry_spec_addrs (entries : list (Specification * list StepValidationError))
  : list addr :=
  map (fun entry => spec_addr entry.1) entries.

Definition entry_scenario_addrs (entries : list (Specification * list StepValidationError))
  : list addr :=
  flat_map (fun entry => scenario_addrs entry.1) entries.

Lemma loaded_app (l1 l2 : list StepValidationError) (F : gmap addr StepValidationError) :
  loaded (l1 ++ l2) F = loaded l2 (loaded l1 F).
Proof. unfold loaded. apply fold_left_app. Qed.

Lemma getErrMap_from_frame (entries : list (Specification * list StepValidationError))
    (errMap : ValidationErrMaps) :
  StepErrs (getErrMap_from entries errMap) = loaded (flat_map snd entries) (StepErrs errMap) /\
  (forall b, b ∉ entry_spec_addrs entries ->
     SpecErrs (getErrMap_from entries errMap) !! b = SpecErrs errMap !! b) /\
  (forall a, a ∉ entry_scenario_addrs entries ->
     ScenarioErrs (getErrMap_from entries errMap) !! a = ScenarioErrs errMap !! a).
Proof.
  unfold getErrMap_from, entry_spec_addrs, entry_scenario_addrs. revert errMap.
  induction entries as [|[spec errs] r IH]; intros errMap; [done |].
  cbn [fold_left flat_map map fst snd].
  destruct (IH (getErrMap_entry (spec, errs) errMap)) as (H1 & H2 & H3).
  destruct (getErrMap_entry_frame spec errs errMap) as (H4 & H5 & H6).
  rewrite H1, H4, loaded_app. split; [done |]. split.
  - intros b Hb. apply not_elem_of_cons in Hb as [Hne Hb]. by rewrite H2, H5.
  - intros a Ha. apply not_elem_of_app in Ha as [Ha1 Ha2]. by rewrite H3, H6.
Qed.

(** A key of a map of lists holds at least one error. *)
Definition has_errors (m : gmap addr (list StepValidationError)) (a : addr) : Prop :=
  exists l, m !! a = Some l /\ l <> [].

(** The map of the steps when the entry of a specification is worked on:
    the errors of the entries before it and its own. *)
Definition failures_known (before : list (Specification * list StepValidationError))
    (errs : list StepValidationError) : gmap addr StepValidationError :=
  loaded (flat_map snd before ++ errs) ∅.

(** A step of the contexts or of the tear down (or under one) has an error. *)
Definition context_failed (F : gmap addr StepValidationError) (spec : Specification) : Prop :=
  failing F (Contexts spec ++ TearDownSteps spec) <> [].

(** The specification has a scenario, and every scenario has a step with
    an error. *)
Definition every_scenario_failed (F : gmap addr StepValidationError) (spec : Specification)
  : Prop :=
  Scenarios spec <> [] /\
  forall scn, scn ∈ Scenarios spec -> failing F (Steps scn) <> [].

Lemma rolled_up_all (F : gmap addr StepValidationError) (spec : Specification) :
  every_scenario_failed F spec ->
  exists first rest,
    Scenarios spec = first :: rest /\ rolled_up F spec = failing F (Steps first) /\
    failing F (Steps first) <> [].
Proof.
  intros [Hne Hall]. unfold rolled_up. destruct (Scenarios spec) as [|first rest]; [done |].
  exists first, rest. assert (forallb (has_failing F) (first :: rest) = true) as ->.
  { apply forallb_forall. intros scn Hin%list_elem_of_In. unfold has_failing.
    specialize (Hall scn Hin). by destruct (failing F (Steps scn)). }
  repeat split. apply Hall. set_solver.
Qed.

Lemma rolled_up_not_all (F : gmap addr StepValidationError) (spec : Specification) :
  ~ every_scenario_failed F spec -> rolled_up F spec = [].
Proof.
  intros Hn. unfold rolled_up. destruct (Scenarios spec) as [|first rest] eqn:E; [done |].
  destruct (forallb _ _) eqn:Hall; [| done]. exfalso. apply Hn. split; [by rewrite E |].
  rewrite E. intros scn Hin%list_elem_of_In. rewrite forallb_forall in Hall.
  specialize (Hall scn Hin). unfold has_failing in Hall. by destruct (failing F (Steps scn)).
Qed.

Lemma rolled_up_some (F : gmap addr StepValidationError) (spec : Specification) :
  rolled_up F spec <> [] -> every_scenario_failed F spec.
Proof.
  unfold rolled_up. destruct (Scenarios spec) as [|first rest] eqn:E; [done |].
  destruct (forallb _ _) eqn:Hall; [| done]. intros _. split; [by rewrite E |].
  rewrite E. intros scn Hin%list_elem_of_In. rewrite forallb_forall in Hall.
  specialize (Hall scn Hin). unfold has_failing in Hall. by destruct (failing F (Steps scn)).
Qed.

(** The entries of a specification in the result of [getErrMap], whatever
    the order of the range, when no two entries share a specification or
    a scenario. *)
Lemma getErrMap_at (before after : list (Specification * list StepValidationError))
    (spec : Specification) (errs : list StepValidationError) :
  NoDup (entry_spec_addrs (before ++ (spec, errs) :: after)) ->
  NoDup (entry_scenario_addrs (before ++ (spec, errs) :: after)) ->
  StepErrs (getErrMap (before ++ (spec, errs) :: after))
  = loaded (flat_map snd after) (failures_known before errs) /\
  SpecErrs (getErrMap (before ++ (spec, errs) :: after)) !! spec_addr spec
  = appended None (rolled_up (failures_known before errs) spec
                   ++ failing (failures_known before errs)
                        (Contexts spec ++ TearDownSteps spec)) /\
  forall scn, scn ∈ Scenarios spec ->
    ScenarioErrs (getErrMap (before ++ (spec, errs) :: after)) !! scenario_addr scn
    = match failing (failures_known before errs) (Steps scn) with
      | [] => match failing (failures_known before errs)
                      (Contexts spec ++ TearDownSteps spec) with
              | [] => None
              | e :: _ => Some [e]
              end
      | l => Some l
      end.
Proof.
  unfold entry_spec_addrs, entry_scenario_addrs, failures_known.
  rewrite map_app, flat_map_app. cbn [map flat_map fst].
  intros (_ & Hs1 & [Hs2 _]%NoDup_cons)%NoDup_app (_ & Hc1 & (Hnd & Hc2 & _)%NoDup_app)%NoDup_app.
  change (getErrMap (before ++ (spec, errs) :: after))
    with (getErrMap_from (before ++ (spec, errs) :: after) NewValidationErrMaps).
  unfold getErrMap_from. rewrite fold_left_app. cbn [fold_left].
  fold (getErrMap_from before NewValidationErrMaps).
  set (M0 := getErrMap_from before NewValidationErrMaps).
  fold (getErrMap_from after (getErrMap_entry (spec, errs) M0)).
  destruct (getErrMap_from_frame before NewValidationErrMaps) as (B1 & B2 & B3).
  fold M0 in B1, B2, B3. cbn [StepErrs SpecErrs ScenarioErrs NewValidationErrMaps] in B1, B2, B3.
  destruct (getErrMap_from_frame after (getErrMap_entry (spec, errs) M0)) as (A1 & A2 & A3).
  destruct (getErrMap_entry_frame spec errs M0) as (E1 & _ & _).
  destruct (getErrMap_entry_exact spec errs M0 Hnd) as [X1 X2].
  { intros a Ha. rewrite B3; [apply lookup_empty |]. intros Hin. by apply (Hc1 a Hin), elem_of_app; left. }
  { rewrite B2; [apply lookup_empty |]. intros Hin. apply (Hs1 _ Hin). set_solver. }
  rewrite B1 in X1, X2, E1. rewrite <- loaded_app in X1, X2, E1.
  split; [by rewrite A1, E1 |]. split.
  - rewrite A2; [exact X1 |]. exact Hs2.
  - intros scn Hin. rewrite A3; [by apply X2 |].
    apply Hc2. by apply list_elem_of_fmap_2.
Qed.

(** C4: [fillSpecErrors] finds the failing steps of the contexts and of the
    tear down, through the concepts, and handles their errors one after
    the other; each error is appended to the list of the specification and
    becomes the list of every scenario of the specification that has no
    entry at that moment.  So in the result of [getErrMap] the scenarios
    without a failing step hold the first error of the contexts, and with
    two scenarios that pass and one failing context step both scenarios
    hold its error. *)
Theorem context_propagation :
  (forall spec errMap steps,
     fillSpecErrors spec errMap steps
     = add_ContextErrs spec (failing (StepErrs errMap) steps) errMap)
  /\
  (forall spec err errMap,
     SpecErrs (add_ContextErr spec err errMap)
     = append_at (spec_addr spec) [err] (SpecErrs errMap) /\
     StepErrs (add_ContextErr spec err errMap) = StepErrs errMap /\
     forall a,
       ScenarioErrs (add_ContextErr spec err errMap) !! a
       = match ScenarioErrs errMap !! a with
         | Some l => Some l
         | None => if decide (a ∈ scenario_addrs spec) then Some [err] else None
         end)
  /\
  (forall spec errs scn,
     NoDup (scenario_addrs spec) ->
     scn ∈ Scenarios spec ->
     failing (loaded errs ∅) (Steps scn) = [] ->
     ScenarioErrs (getErrMap [(spec, errs)]) !! scenario_addr scn
     = match failing (loaded errs ∅) (Contexts spec ++ TearDownSteps spec) with
       | [] => None
       | e :: _ => Some [e]
       end)
  /\
  (forall spec s1 s2 c e,
     Scenarios spec = [s1; s2] ->
     scenario_addr s1 <> scenario_addr s2 ->
     Contexts spec = [c] -> TearDownSteps spec = [] ->
     IsConcept c = false -> step e = c ->
     failing {[step_addr c := e]} (Steps s1) = [] ->
     failing {[step_addr c := e]} (Steps s2) = [] ->
     let M := getErrMap [(spec, [e])] in
     ScenarioErrs M !! scenario_addr s1 = Some [e] /\
     ScenarioErrs M !! scenario_addr s2 = Some [e] /\
     SpecErrs M !! spec_addr spec = Some [e]).
Proof.
  split; [exact fillSpecErrors_flat |]. split; [| split].
  - intros spec err errMap. unfold add_ContextErr.
    destruct (propagate_lookup err (Scenarios spec) (add_SpecErrs spec [err] errMap))
      as (H1 & H2 & H3). by rewrite H1, H2.
  - intros spec errs scn Hnd Hin Hpass.
    destruct (getErrMap_at [] [] spec errs) as (_ & _ & H).
    + unfold entry_spec_addrs. cbn. apply NoDup_singleton.
    + unfold entry_scenario_addrs. cbn. by rewrite app_nil_r.
    + cbn [app] in H. rewrite (H scn Hin). unfold failures_known. cbn [flat_map app].
      by rewrite Hpass.
  - intros spec s1 s2 c e Hscns Hne Hctx Htd Hc He Hp1 Hp2 M. subst M.
    destruct (getErrMap_at [] [] spec [e]) as (_ & Hspec & H).
    + unfold entry_spec_addrs. cbn. apply NoDup_singleton.
    + unfold entry_scenario_addrs, scenario_addrs. cbn. rewrite Hscns, app_nil_r. cbn.
      apply NoDup_cons. split; [set_solver |]. apply NoDup_singleton.
    + cbn [app] in H, Hspec. unfold failures_known, loaded in H, Hspec.
      cbn [flat_map app fold_left] in H, Hspec. rewrite He, insert_empty in H, Hspec.
      assert (failing {[step_addr c := e]} (Contexts spec ++ TearDownSteps spec) = [e]) as Hf.
      { rewrite Hctx, Htd. cbn [app]. rewrite failing_cons, Hc, lookup_singleton_eq. done. }
      rewrite Hf in H, Hspec.
      assert (rolled_up {[step_addr c := e]} spec = []) as Hr.
      { unfold rolled_up. rewrite Hscns. cbn [forallb]. unfold has_failing at 1. by rewrite Hp1. }
      rewrite Hr in Hspec. repeat split.
      * rewrite (H s1) by (rewrite Hscns; set_solver). by rewrite Hp1.
      * rewrite (H s2) by (rewrite Hscns; set_solver). by rewrite Hp2.
      * exact Hspec.
Qed.

(** C3: in the result of [getErrMap] the list of a specification holds an
    error exactly when a step of its contexts or tear down has an error, or
    it has a scenario and every scenario has a step with an error (which is
    to say: every scenario holds an error in the result).  When only the
    second holds the list is the list of the first scenario; when neither
    holds the specification has no entry.  The errors a step can have are
    those put into the map of the steps up to the entry of the
    specification; for a single entry they are the map of the result. *)
Theorem total_failure_rollup (before after : list (Specification * list StepValidationError))
    (spec : Specification) (errs : list StepValidationError) :
  NoDup (entry_spec_addrs (before ++ (spec, errs) :: after)) ->
  NoDup (entry_scenario_addrs (before ++ (spec, errs) :: after)) ->
  let M := getErrMap (before ++ (spec, errs) :: after) in
  let F := failures_known before errs in
  StepErrs M = loaded (flat_map snd after) F
  /\ (has_errors (SpecErrs M) (spec_addr spec)
      <-> context_failed F spec \/ every_scenario_failed F spec)
  /\ (has_errors (SpecErrs M) (spec_addr spec)
      <-> context_failed F spec
          \/ (Scenarios spec <> [] /\
              forall scn, scn ∈ Scenarios spec ->
                has_errors (ScenarioErrs M) (scenario_addr scn)))
  /\ (~ context_failed F spec -> every_scenario_failed F spec ->
      exists first rest,
        Scenarios spec = first :: rest /\
        SpecErrs M !! spec_addr spec = Some (failing F (Steps first)) /\
        ScenarioErrs M !! scenario_addr first = Some (failing F (Steps first)))
  /\ (~ context_failed F spec -> ~ every_scenario_failed F spec ->
      SpecErrs M !! spec_addr spec = None).
Proof.
  intros Hs Hc M F. destruct (getErrMap_at before after spec errs Hs Hc) as (H1 & H2 & H3).
  fold M F in H1, H2, H3. unfold context_failed.
  set (ctx := failing F (Contexts spec ++ TearDownSteps spec)) in *.
  assert (has_errors (SpecErrs M) (spec_addr spec) <-> ctx <> [] \/ every_scenario_failed F spec)
    as Hiff.
  { unfold has_errors. rewrite H2. split.
    - intros (l & Hl & Hne). destruct ctx as [|e0 ctx']; [right | by left].
      apply rolled_up_some. rewrite app_nil_r in Hl.
      destruct (rolled_up F spec); [| done]. cbn in Hl. congruence.
    - intros [Hctx|Hall].
      + exists (rolled_up F spec ++ ctx). split; [| by destruct (rolled_up F spec), ctx].
        by destruct (rolled_up F spec), ctx.
      + destruct (rolled_up_all _ _ Hall) as (first & rest & _ & -> & Hne).
        exists (failing F (Steps first) ++ ctx).
        split; by destruct (failing F (Steps first)), ctx. }
  split; [exact H1 |]. split; [exact Hiff |]. split; [| split].
  - rewrite Hiff. split.
    + intros [Hctx|[Hne Hall]]; [by left |]. right. split; [done |].
      intros scn Hin. unfold has_errors. rewrite (H3 scn Hin).
      specialize (Hall scn Hin). destruct (failing F (Steps scn)) as [|e l]; [done |].
      by exists (e :: l).
    + intros [Hctx|[Hne Hall]]; [by left |].
      destruct ctx as [|e0 ctx'] eqn:Ectx; [right | by left].
      split; [done |]. intros scn Hin. destruct (Hall scn Hin) as (l & Hl & Hlne).
      rewrite (H3 scn Hin) in Hl. by destruct (failing F (Steps scn)).
  - intros Hnc Hall. assert (ctx = []) as Hctx by (destruct ctx; [done | by destruct Hnc]).
    destruct (rolled_up_all _ _ Hall) as (first & rest & Hscns & Hr & Hne).
    exists first, rest. split; [done |]. split.
    + rewrite H2, Hr, Hctx, app_nil_r. by destruct (failing F (Steps first)).
    + rewrite (H3 first) by (rewrite Hscns; set_solver).
      by destruct (failing F (Steps first)).
  - intros Hnc Hn. assert (ctx = []) as Hctx by (destruct ctx; [done | by destruct Hnc]).
    by rewrite H2, (rolled_up_not_all _ _ Hn), Hctx.
Qed.

End Aggregator.

(** ** The coordinator *)

Section CoordinatorProperties.

Variable unicode_ToLower unicode_ToUpper : string -> string.
Variable ErrorType_String : StepValidateResponse_ErrorType -> string.
Variable getResponseFromRunner : Message -> specValidator -> option Message * option string.
Variable Traverse : Specification -> list Visit.
Variable Manifest : Type.
Variable ProjectManifest : option Manifest * option string.
Variable ParseConcepts : ConceptDictionary * ParseResult.
Variable ParseSpecs : list string -> ConceptDictionary -> list Specification * bool.
Variable runnerStarts : bool -> bool.
Variable rangeOver : validationErrors -> list (Specification * list StepValidationError).

Local Abbreviation ValidateSpecs :=
  (validation.ValidateSpecs unicode_ToLower unicode_ToUpper ErrorType_String
     getResponseFromRunner Traverse Manifest ProjectManifest ParseConcepts ParseSpecs
     runnerStarts rangeOver).
Local Abbreviation validate :=
  (validator_validate unicode_ToLower unicode_ToUpper ErrorType_String
     getResponseFromRunner Traverse Manifest).

(** C7, as the code has it: with critical errors of the parsing of the
    concepts [ValidateSpecs] returns them and nothing has been started or
    asked; when no such error is reported and the parsing of the
    specifications failed or the result of the parsing of the concepts is
    not Ok, the runner is started, the specifications that were parsed are
    validated with it, the failures are printed, and then the runner is
    killed and the one error "Parsing failed." is returned. *)
Theorem parse_failure (args : list string) (debug : bool) :
  ProjectManifest.2 = None ->
  (CriticalErrors ParseConcepts.2 <> [] ->
   ValidateSpecs args debug
   = Some (NewValidationResult None None None (CriticalErrors ParseConcepts.2), []))
  /\
  (CriticalErrors ParseConcepts.2 = [] ->
   (ParseSpecs args ParseConcepts.1).2 = true \/ Ok ParseConcepts.2 = false ->
   runnerStarts debug = true ->
   forall vErrs sv,
     validate (newValidator Manifest ProjectManifest.1 (ParseSpecs args ParseConcepts.1).1 []
                 ParseConcepts.1) = Some (vErrs, sv) ->
     ValidateSpecs args debug
     = Some (NewValidationResult None None None ["Parsing failed."],
             [StartAPI debug] ++ map Request (runner sv)
             ++ (if (0 <? size vErrs)%nat
                 then printValidationFailures rangeOver vErrs else [])
             ++ [Kill])).
Proof.
  intros Hm. unfold validation.ValidateSpecs.
  destruct ProjectManifest as [m err]. cbn in Hm. subst err.
  destruct ParseConcepts as [conceptDict res]. cbn [fst snd]. split.
  - intros Hc. destruct (CriticalErrors res); [done | reflexivity].
  - intros -> Hfail Hstart vErrs sv Hv. cbn [length Nat.ltb Nat.leb].
    destruct (ParseSpecs args conceptDict) as [s specsFailed]. cbn [fst snd] in *.
    unfold startAPI. rewrite Hstart. cbn [mbind option_bind]. rewrite Hv.
    cbn [mbind option_bind].
    assert (specsFailed || negb (Ok res) = true) as ->.
    { destruct Hfail as [->| ->]; [done | by rewrite orb_true_r]. }
    reflexivity.
Qed.

End CoordinatorProperties.

End Properties.

(** * A small project, run through the validator *)

Module Examples.
Import GoString Strconv TableRange gauge gauge_messages validation Properties.

Definition literal (a : addr) (line : Z) (text : string) (parent : option gauge.Step) : gauge.Step :=
  {| step_addr := a; LineNo := line; Value := text; LineText := text; Args := [];
     IsConcept := false; ConceptSteps := []; Parent := parent |}.

(** The heading of the concept, as the steps of its body see it. *)
Definition greet_heading : gauge.Step :=
  {| step_addr := 10%positive; LineNo := 1; Value := "greet everyone"; LineText := "greet everyone";
     Args := []; IsConcept := true; ConceptSteps := []; Parent := None |}.

Definition hello : gauge.Step := literal 1%positive 3 "say hello" None.
Definition missing : gauge.Step := literal 2%positive 5 "unknown step" None.
Definition missing_in_concept : gauge.Step := literal 3%positive 2 "unknown step" (Some greet_heading).
Definition hello_in_concept : gauge.Step := literal 4%positive 3 "say hello" (Some greet_heading).
Definition timing_out : gauge.Step := literal 5%positive 7 "time out" (Some greet_heading).
Definition garbled : gauge.Step := literal 6%positive 8 "garbled" None.

Definition greet : gauge.Step :=
  {| step_addr := 10%positive; LineNo := 6; Value := "greet everyone"; LineText := "greet everyone";
     Args := []; IsConcept := true;
     ConceptSteps := [missing_in_concept; hello_in_concept]; Parent := None |}.

Definition dictionary : ConceptDictionary :=
  {[ "greet everyone" := {| ConceptStep := greet; ConceptFileName := "concepts/greet.cpt" |} ]}.

Definition scenario_a1 : Scenario := {| scenario_addr := 21%positive; Steps := [missing] |}.
Definition scenario_a2 : Scenario := {| scenario_addr := 22%positive; Steps := [greet] |}.
Definition scenario_b1 : Scenario := {| scenario_addr := 23%positive; Steps := [greet] |}.
Definition scenario_c1 : Scenario := {| scenario_addr := 24%positive; Steps := [hello] |}.
Definition scenario_c2 : Scenario := {| scenario_addr := 25%positive; Steps := [hello] |}.

Definition spec_a : Specification :=
  {| spec_addr := 31%positive; FileName := "specs/a.spec"; Scenarios := [scenario_a1; scenario_a2];
     Contexts := [hello]; TearDownSteps := [] |}.
Definition spec_b : Specification :=
  {| spec_addr := 32%positive; FileName := "specs/b.spec"; Scenarios := [scenario_b1];
     Contexts := []; TearDownSteps := [] |}.
Definition spec_c : Specification :=
  {| spec_addr := 33%positive; FileName := "specs/c.spec"; Scenarios := [scenario_c1; scenario_c2];
     Contexts := [missing]; TearDownSteps := [] |}.

(** A traversal in the order of the file: the heading, the contexts, the
    scenarios with their steps, the tear down. *)
Definition traverse (spec : Specification) : list Visit :=
  VisitSpecHeading
  :: map VisitContextStep (Contexts spec)
  ++ flat_map (fun scn => VisitScenarioHeading :: map VisitStep (Steps scn) ++ [VisitScenario])
       (Scenarios spec)
  ++ VisitTearDown :: map VisitContextStep (TearDownSteps spec).

Definition names (x : StepValidateResponse_ErrorType) : string :=
  if x =? 1 then "DUPLICATE_STEP_IMPLEMENTATION" else "STEP_IMPLEMENTATION_NOT_FOUND".

Definition response (valid : bool) (kind : option StepValidateResponse_ErrorType) : Message :=
  {| MessageType := Some Message_StepValidateResponse;
     StepValidateRequest_ := None;
     StepValidateResponse_ :=
       Some {| IsValid := Some valid; ErrorMessage := None; ErrorType := kind |} |}.

(** A runner that implements "say hello", is not reached for "time out",
    answers "garbled" with a message of another kind and does not know any
    other step. *)
Definition answer (m : Message) (v : specValidator) : option Message * option string :=
  match request_text m with
  | Some t =>
      if string_dec t "say hello" then (Some (response true None), None)
      else if string_dec t "time out" then (None, Some "connection timed out")
      else if string_dec t "garbled"
           then (Some {| MessageType := Some (Message_Other 3);
                         StepValidateRequest_ := None;
                         StepValidateResponse_ := None |}, None)
           else (Some (response false (Some 0)), None)
  | None => (None, Some "no request")
  end.

Definition same (s : string) : string := s.

Definition fresh (spec : Specification) : specValidator :=
  {| specification := Some spec; runner := []; conceptsDictionary := dictionary;
     stepValidationErrors := []; stepValidationCache := ∅ |}.

Definition project : validator unit :=
  newValidator unit (Some tt) [spec_a; spec_b] [] dictionary.

Definition greet_concept : Concept :=
  {| ConceptStep := greet; ConceptFileName := "concepts/greet.cpt" |}.

Definition not_found (s : gauge.Step) (file : string) : StepValidationError :=
  NewValidationError s "Step implementation not found" file (Some 0).

Lemma names_render_example : names_render same same names.
Proof. intros x. unfold names. destruct (x =? 1); vm_compute; eauto. Qed.

Lemma responses_carried_example : responses_carried answer.
Proof.
  intros m v r. unfold answer. destruct (request_text m) as [t|]; [| done].
  repeat destruct (string_dec _ _); intros [= <-]; cbn; (done || eauto).
Qed.

Lemma parents_defined_example :
  parents_defined dictionary (run_steps traverse [spec_a; spec_b]).
Proof.
  intros s p Hin. vm_compute in Hin.
  repeat (apply elem_of_cons in Hin as [->|Hin]); try (by apply elem_of_nil in Hin);
    intros [= <-]; vm_compute; eauto.
Qed.

(** Two specifications with five steps of two texts: two requests. *)
Lemma memoization_witness :
  exists status sv,
    validator_validate same same names answer traverse unit project = Some (status, sv) /\
    runner sv = [validateRequest hello; validateRequest missing] /\
    exists errs,
      status !! spec_addr spec_b = Some (spec_b, errs) /\
      map core errs = [(missing_in_concept, "Step implementation not found", Some 0)].
Proof.
  destruct (proj1 (memoization same same names answer traverse unit project)
              names_render_example responses_carried_example parents_defined_example)
    as [[status sv] Hrun].
  exists status, sv. split; [exact Hrun |].
  destruct (proj2 (memoization same same names answer traverse unit project) status sv Hrun)
    as (Hr & _ & Hst).
  split; [rewrite Hr; vm_compute; reflexivity |].
  vm_compute in Hrun. injection Hrun as <- <-. eexists. split; vm_compute; reflexivity.
Defined.

(** The step of the concept that the runner does not know, validated for
    the specification b: the error names the file of the concept. *)
Lemma concept_attribution_witness :
  exists v',
    specValidator_Step same same names answer missing_in_concept (fresh spec_b) = Some v' /\
    stepValidationErrors v' = [not_found missing_in_concept "concepts/greet.cpt"].
Proof.
  destruct (proj1 (concept_attribution same same names answer missing_in_concept greet_heading
                     greet_concept (fresh spec_b) eq_refl eq_refl eq_refl)
              (Some (response false (Some 0)))
              {| IsValid := Some false; ErrorMessage := None; ErrorType := Some 0 |}
              "Step implementation not found"
              eq_refl eq_refl eq_refl eq_refl eq_refl eq_refl)
    as (v' & Hstep & Herrs & _).
  exists v'. split; [exact Hstep | exact Herrs].
Defined.

(** A step of the concept whose request times out: the error names the
    file of the specification. *)
Lemma transport_failure_witness :
  specValidator_validateStep same same names answer timing_out (fresh spec_a)
  = Some (Some {| step := timing_out; message := "connection timed out";
                  fileName := "specs/a.spec"; errorType := None |},
          sent (validateRequest timing_out) (fresh spec_a)).
Proof.
  exact (proj1 (transport_failure same same names answer timing_out (fresh spec_a) None
                  "connection timed out" spec_a eq_refl eq_refl)).
Defined.

Lemma protocol_violation_witness :
  specValidator_validateStep same same names answer garbled (fresh spec_a)
  = Some (Some {| step := garbled;
                  message := "Invalid response from runner for Validation request";
                  fileName := "specs/a.spec"; errorType := Some (-1) |},
          sent (validateRequest garbled) (fresh spec_a)).
Proof.
  exact (proj1 (protocol_violation same same names answer garbled (fresh spec_a)
                  (Some {| MessageType := Some (Message_Other 3);
                           StepValidateRequest_ := None;
                           StepValidateResponse_ := None |})
                  spec_a eq_refl eq_refl eq_refl)).
Defined.

Lemma getMessage_presentational_witness :
  getMessage same same "STEP_IMPLEMENTATION_NOT_FOUND" = Some "Step implementation not found".
Proof.
  exact (proj1 (getMessage_presentational same same names answer)
           "STEP_IMPLEMENTATION_NOT_FOUND" ltac:(discriminate) eq_refl).
Defined.

(** The only scenario of the specification b fails: its list is the list
    of the specification. *)
Lemma total_failure_rollup_witness :
  has_errors (SpecErrs (getErrMap [(spec_b, [not_found missing_in_concept "concepts/greet.cpt"])]))
    (spec_addr spec_b).
Proof.
  assert (NoDup (entry_spec_addrs
                   ([] ++ [(spec_b, [not_found missing_in_concept "concepts/greet.cpt"])])))
    as H1 by (vm_compute; apply NoDup_singleton).
  assert (NoDup (entry_scenario_addrs
                   ([] ++ [(spec_b, [not_found missing_in_concept "concepts/greet.cpt"])])))
    as H2 by (vm_compute; apply NoDup_singleton).
  destruct (total_failure_rollup [] [] spec_b
              [not_found missing_in_concept "concepts/greet.cpt"] H1 H2) as (_ & Hiff & _).
  apply Hiff. right. split; [discriminate |].
  intros scn ->%list_elem_of_singleton. vm_compute. discriminate.
Defined.

(** Two scenarios that pass and a context step the runner does not know. *)
Lemma context_propagation_witness :
  ScenarioErrs (getErrMap [(spec_c, [not_found missing "specs/c.spec"])])
    !! scenario_addr scenario_c1 = Some [not_found missing "specs/c.spec"] /\
  ScenarioErrs (getErrMap [(spec_c, [not_found missing "specs/c.spec"])])
    !! scenario_addr scenario_c2 = Some [not_found missing "specs/c.spec"] /\
  SpecErrs (getErrMap [(spec_c, [not_found missing "specs/c.spec"])])
    !! spec_addr spec_c = Some [not_found missing "specs/c.spec"].
Proof.
  apply (proj2 (proj2 (proj2 context_propagation)) spec_c scenario_c1 scenario_c2 missing
           (not_found missing "specs/c.spec")); try reflexivity.
  discriminate.
Defined.

(** The world around [ValidateSpecs]: the concepts parse, one of the two
    files of specifications does not, the runner comes up. *)
Definition manifest_found : option unit * option string := (Some tt, None).
Definition concepts_parsed : ConceptDictionary * ParseResult :=
  (dictionary, {| CriticalErrors := []; Ok := true |}).
Definition concepts_broken : ConceptDictionary * ParseResult :=
  (∅, {| CriticalErrors := ["concepts/greet.cpt:4 Circular reference"]; Ok := false |}).
Definition one_spec_failed (args : list string) (dict : ConceptDictionary)
  : list Specification * bool :=
  ([spec_b], true).
Definition comes_up (debug : bool) : bool := true.
Definition by_address (vErrs : validationErrors)
  : list (Specification * list StepValidationError) :=
  map snd (map_to_list vErrs).

Definition ValidateSpecs_example (concepts : ConceptDictionary * ParseResult) :=
  ValidateSpecs same same names answer traverse unit manifest_found concepts
    one_spec_failed comes_up by_address ["specs"] false.

(** With critical errors of the concepts nothing is started or asked. *)
Lemma parse_failure_witness :
  ValidateSpecs_example concepts_broken
  = Some (NewValidationResult None None None ["concepts/greet.cpt:4 Circular reference"], []).
Proof.
  exact (proj1 (parse_failure same same names answer traverse unit manifest_found
                  concepts_broken one_spec_failed comes_up by_address ["specs"] false eq_refl)
           ltac:(discriminate)).
Defined.

(** A file of specifications does not parse and the concepts do: the
    parse failure is returned after the runner has been started, asked
    about the two steps of the specification that did parse, and killed. *)
Lemma parse_failure_after_validation :
  (one_spec_failed ["specs"] dictionary).2 = true /\
  ValidateSpecs_example concepts_parsed
  = Some (NewValidationResult None None None ["Parsing failed."],
          [StartAPI false;
           Request (validateRequest missing_in_concept);
           Request (validateRequest hello_in_concept);
           LogValidationError (not_found missing_in_concept "concepts/greet.cpt");
           Kill]).
Proof. split; [reflexivity |]. vm_compute. reflexivity. Qed.

End Examples.

(** * Further properties of the package *)

Module Numerals.
Import GoString Strconv TableRange.

(** The decimal numeral of a number: its digits without leading zeros,
    after a minus sign when it is negative.  [fuel] bounds the digits
    still to come after the one at hand. *)
Fixpoint numeral_digits (fuel : nat) (u : Z) (acc : string) : string :=
  let acc' := String (byte_of (48 + u mod 10)) acc in
  match fuel with
  | O => acc'
  | S f => if u <? 10 then acc' else numeral_digits f (u / 10) acc'
  end.

Definition numeral (i : Z) : string :=
  if i <? 0
  then String "-" (numeral_digits (Z.to_nat (Z.log2 (- i))) (- i) EmptyString)
  else numeral_digits (Z.to_nat (Z.log2 i)) i EmptyString.

Lemma byte_val_of (z : Z) : 0 <= z < 256 -> byte_val (byte_of z) = z.
Proof.
  intros H. unfold byte_val, byte_of. rewrite N_ascii_embedding; lia.
Qed.

Lemma digit_of_char (d : Z) : 0 <= d < 10 -> digit (byte_of (48 + d)) = Some d.
Proof.
  intros H. unfold digit. rewrite byte_val_of by lia.
  destruct (Z.leb_spec 48 (48 + d)), (Z.leb_spec (48 + d) 57); try lia.
  cbn. f_equal. lia.
Qed.

Lemma digits_numeral (f : nat) (u : Z) (acc : string) (a : Z) :
  0 <= u < 10 ^ (Z.of_nat f + 1) ->
  exists k, 0 <= k /\ digits a (numeral_digits f u acc) = digits (a * 10 ^ k + u) acc.
Proof.
  revert u acc a. induction f as [|f IH]; intros u acc a Hu.
  - exists 1. split; [lia |]. cbn [numeral_digits digits].
    change (10 ^ (Z.of_nat 0 + 1)) with 10 in Hu.
    rewrite Z.mod_small by lia. rewrite digit_of_char by lia. f_equal; lia.
  - cbn [numeral_digits]. destruct (Z.ltb_spec u 10) as [Hlt|Hge].
    + exists 1. split; [lia |]. cbn [digits].
      rewrite Z.mod_small by lia. rewrite digit_of_char by lia. f_equal; lia.
    + destruct (IH (u / 10) (String (byte_of (48 + u mod 10)) acc) a) as (k & Hk & Heq).
      { split; [apply Z.div_pos; lia |]. apply Z.div_lt_upper_bound; [lia |].
        replace (Z.of_nat (S f) + 1) with (Z.succ (Z.of_nat f + 1)) in Hu by lia.
        rewrite Z.pow_succ_r in Hu by lia. lia. }
      exists (k + 1). split; [lia |]. rewrite Heq. cbn [digits].
      rewrite digit_of_char by (apply Z.mod_pos_bound; lia). f_equal.
      rewrite Z.pow_add_r by lia. pose proof (Z.div_mod u 10 ltac:(lia)). lia.
Qed.

Lemma numeral_digits_head (f : nat) (u : Z) (acc : string) :
  0 <= u ->
  exists d r, 0 <= d < 10 /\ numeral_digits f u acc = String (byte_of (48 + d)) r.
Proof.
  revert u acc. induction f as [|f IH]; intros u acc Hu.
  - exists (u mod 10), acc. split; [apply Z.mod_pos_bound; lia | reflexivity].
  - cbn [numeral_digits]. destruct (u <? 10).
    + exists (u mod 10), acc. split; [apply Z.mod_pos_bound; lia | reflexivity].
    + apply IH. apply Z.div_pos; lia.
Qed.

Lemma enough_fuel (u : Z) : 0 <= u -> 0 <= u < 10 ^ (Z.of_nat (Z.to_nat (Z.log2 u)) + 1).
Proof.
  intros Hu. split; [done |]. rewrite Z2Nat.id by apply Z.log2_nonneg.
  destruct (Z.eq_dec u 0) as [->|Hne]; [done |].
  pose proof (Z.log2_spec u ltac:(lia)) as [_ H].
  eapply Z.lt_le_trans; [exact H |]. unfold Z.succ.
  apply Z.pow_le_mono_l. pose proof (Z.log2_nonneg u). lia.
Qed.

Lemma Atoi_digits_string (c : ascii) (r : string) (d v : Z) :
  0 <= d < 10 -> c = byte_of (48 + d) ->
  digits 0 (String c r) = Some v ->
  Atoi (String c r) = if (minInt <=? v) && (v <=? maxInt) then Some v else None.
Proof.
  intros Hd -> Hv. unfold Atoi.
  destruct (ascii_dec (byte_of (48 + d)) "-") as [E|_].
  { apply (f_equal byte_val) in E. rewrite byte_val_of in E by lia.
    change (byte_val "-") with 45 in E. lia. }
  destruct (ascii_dec (byte_of (48 + d)) "+") as [E|_].
  { apply (f_equal byte_val) in E. rewrite byte_val_of in E by lia.
    change (byte_val "+") with 43 in E. lia. }
  by rewrite Hv.
Qed.

(** [strconv.Atoi] reads the decimal numeral of every [int] back. *)
Lemma Atoi_numeral (i : Z) : minInt <= i <= maxInt -> Atoi (numeral i) = Some i.
Proof.
  intros Hi. unfold numeral. destruct (Z.ltb_spec i 0) as [Hneg|Hpos].
  - destruct (numeral_digits_head (Z.to_nat (Z.log2 (- i))) (- i) EmptyString ltac:(lia))
      as (d & r & Hd & Hs).
    destruct (digits_numeral _ _ EmptyString 0 (enough_fuel (- i) ltac:(lia))) as (k & _ & Hk).
    cbn [digits] in Hk. rewrite Z.mul_0_l, Z.add_0_l in Hk.
    unfold Atoi. destruct (ascii_dec "-" "-") as [_|]; [| done].
    rewrite Hs in *. rewrite Hk. rewrite Z.opp_involutive.
    destruct (Z.leb_spec minInt i), (Z.leb_spec i maxInt); try lia. reflexivity.
  - destruct (numeral_digits_head (Z.to_nat (Z.log2 i)) i EmptyString ltac:(lia))
      as (d & r & Hd & Hs).
    destruct (digits_numeral _ _ EmptyString 0 (enough_fuel i ltac:(lia))) as (k & _ & Hk).
    cbn [digits] in Hk. rewrite Z.mul_0_l, Z.add_0_l in Hk.
    rewrite Hs in *. rewrite (Atoi_digits_string _ _ d i Hd eq_refl Hk).
    destruct (Z.leb_spec minInt i), (Z.leb_spec i maxInt); try lia. reflexivity.
Qed.

End Numerals.

Module RangeProperties.
Import GoString Strconv TableRange Numerals.

(** X1: when [ValidateTableRowsRange] returns no error its two indexes lie
    in the table, the first not after the second: [0 <= i <= j < rowCount];
    and for a table without rows every range is refused. *)
Theorem row_range_within_table :
  (forall (start end_ : string) (rowCount i j : Z),
     ValidateTableRowsRange start end_ rowCount = (i, j, None) ->
     0 <= i /\ i <= j /\ j < rowCount)
  /\
  (forall (start end_ : string) (rowCount : Z),
     rowCount < 1 ->
     ValidateTableRowsRange start end_ rowCount = (0, 0, Some message)).
Proof.
  split.
  - intros start end_ rowCount i j. unfold ValidateTableRowsRange.
    destruct (Atoi start) as [s|]; [| done]. destruct (Atoi end_) as [e|]; [| done].
    rewrite !Z.gtb_ltb.
    destruct (Z.ltb_spec e s), (Z.ltb_spec rowCount e), (Z.ltb_spec s 1), (Z.ltb_spec e 1);
      cbn [orb]; try done. intros [= <- <-]. lia.
  - intros start end_ rowCount Hn. unfold ValidateTableRowsRange.
    destruct (Atoi start) as [s|]; [| done]. destruct (Atoi end_) as [e|]; [| done].
    rewrite !Z.gtb_ltb.
    destruct (Z.ltb_spec e s), (Z.ltb_spec rowCount e), (Z.ltb_spec s 1), (Z.ltb_spec e 1);
      cbn [orb]; try done. lia.
Qed.

(** X2: for two numbers that fit an [int], written as decimal numerals,
    [ValidateTableRowsRange] returns the numbers less one exactly when
    [1 <= s <= e <= rowCount], and the error otherwise. *)
Theorem row_range_of_numerals (s e rowCount : Z) :
  minInt <= s <= maxInt ->
  minInt <= e <= maxInt ->
  ValidateTableRowsRange (numeral s) (numeral e) rowCount
  = if decide (1 <= s /\ s <= e /\ e <= rowCount)
    then (s - 1, e - 1, None)
    else (0, 0, Some message).
Proof.
  intros Hs He. unfold ValidateTableRowsRange.
  rewrite (Atoi_numeral s Hs), (Atoi_numeral e He), !Z.gtb_ltb.
  destruct (Z.ltb_spec e s), (Z.ltb_spec rowCount e), (Z.ltb_spec s 1), (Z.ltb_spec e 1);
    cbn [orb]; case_decide; try reflexivity; lia.
Qed.

Lemma row_range_of_numerals_witness :
  ValidateTableRowsRange (numeral 12) (numeral 345) 400 = (11, 344, None).
Proof.
  rewrite (row_range_of_numerals 12 345 400); [reflexivity | |]; vm_compute; split; discriminate.
Defined.

End RangeProperties.

Module MessageProperties.
Import GoString gauge_messages validation Properties.

Definition to_space (c : ascii) : ascii := if ascii_dec c "_"%char then " "%char else c.

Lemma map_bytes_map_bytes (f g : ascii -> ascii) (s : string) :
  map_bytes f (map_bytes g s) = map_bytes (fun c => f (g c)) s.
Proof. induction s as [|c r IH]; [reflexivity |]. cbn. by rewrite IH. Qed.

Lemma map_bytes_ext (f g : ascii -> ascii) (s : string) :
  (forall c, f c = g c) -> map_bytes f s = map_bytes g s.
Proof. intros H. induction s as [|c r IH]; [reflexivity |]. cbn. by rewrite H, IH. Qed.

Lemma map_bytes_length (f : ascii -> ascii) (s : string) :
  String.length (map_bytes f s) = String.length s.
Proof. induction s as [|c r IH]; [reflexivity |]. cbn. by rewrite IH. Qed.

Ltac each_byte c :=
  destruct c as [[] [] [] [] [] [] [] []]; vm_compute; reflexivity.

Lemma tail_byte_stable (c : ascii) :
  lower_byte (to_space (lower_byte (to_space c))) = lower_byte (to_space c).
Proof. each_byte c. Qed.

Lemma head_byte_stable (c : ascii) :
  upper_byte (lower_byte (to_space (upper_byte (lower_byte (to_space c)))))
  = upper_byte (lower_byte (to_space c)).
Proof. each_byte c. Qed.

Lemma tail_byte_no_underscore (c : ascii) :
  to_space (lower_byte (to_space c)) = lower_byte (to_space c).
Proof. each_byte c. Qed.

Lemma head_byte_no_underscore (c : ascii) :
  to_space (upper_byte (lower_byte (to_space c))) = upper_byte (lower_byte (to_space c)).
Proof. each_byte c. Qed.

Lemma upper_byte_ascii (c : ascii) :
  (byte_val c <? RuneSelf) = true -> (byte_val (upper_byte c) <? RuneSelf) = true.
Proof. destruct c as [[] [] [] [] [] [] [] []]; vm_compute; done. Qed.

Lemma rendered_cons (c : ascii) (r : string) :
  rendered (String c r)
  = String (upper_byte (lower_byte (to_space c))) (map_bytes (fun x => lower_byte (to_space x)) r).
Proof.
  unfold rendered, lower_case, underscores_to_spaces. cbn [map_bytes capitalize].
  by rewrite map_bytes_map_bytes.
Qed.

Lemma rendered_length (name : string) : String.length (rendered name) = String.length name.
Proof.
  destruct name as [|c r]; [reflexivity |]. rewrite rendered_cons. cbn.
  by rewrite map_bytes_length.
Qed.

Lemma rendered_ascii (name : string) : isASCII name = true -> isASCII (rendered name) = true.
Proof.
  intros Ha. unfold rendered.
  pose proof (isASCII_lower_case _ (isASCII_underscores_to_spaces _ Ha)) as Hl.
  destruct (lower_case (underscores_to_spaces name)) as [|c r]; [reflexivity |].
  cbn [capitalize isASCII] in *. apply andb_true_iff in Hl as [Hc Hr].
  by rewrite (upper_byte_ascii _ Hc), Hr.
Qed.

Lemma rendered_no_underscore (name : string) :
  underscores_to_spaces (rendered name) = rendered name.
Proof.
  destruct name as [|c r]; [reflexivity |]. rewrite rendered_cons.
  unfold underscores_to_spaces. cbn [map_bytes]. fold (to_space (upper_byte (lower_byte (to_space c)))).
  rewrite head_byte_no_underscore, map_bytes_map_bytes. f_equal.
  apply map_bytes_ext. intros x. apply tail_byte_no_underscore.
Qed.

Lemma rendered_rendered (name : string) : rendered (rendered name) = rendered name.
Proof.
  destruct name as [|c r]; [reflexivity |]. rewrite !rendered_cons.
  rewrite head_byte_stable, map_bytes_map_bytes. f_equal.
  apply map_bytes_ext. intros x. apply tail_byte_stable.
Qed.

Section Shape.
Variable unicode_ToLower unicode_ToUpper : string -> string.
Local Abbreviation getMessage := (validation.getMessage unicode_ToLower unicode_ToUpper).

Lemma getMessage_ascii_value (name : string) :
  isASCII name = true ->
  getMessage name = match name with EmptyString => None | String _ _ => Some (rendered name) end.
Proof.
  intros Ha. destruct name as [|c r]; [reflexivity |].
  by apply getMessage_ascii.
Qed.

(** X3: on a name of ASCII characters [getMessage] panics exactly for the
    empty name; its result has the length of the name, is ASCII, holds no
    underscore, and is left as it is by [getMessage]. *)
Theorem getMessage_shape (name : string) :
  isASCII name = true ->
  (getMessage name = None <-> name = EmptyString)
  /\ forall m,
       getMessage name = Some m ->
       String.length m = String.length name
       /\ isASCII m = true
       /\ Replace m "_" " " (-1) = m
       /\ getMessage m = Some m.
Proof.
  intros Ha. rewrite (getMessage_ascii_value name Ha). split.
  - by destruct name.
  - intros m Hm. destruct name as [|c r]; [done |]. injection Hm as <-.
    pose proof (rendered_ascii _ Ha) as Hra.
    split; [apply rendered_length |]. split; [exact Hra |]. split.
    + unfold Replace. destruct (string_dec "_" " "); [done |].
      rewrite replace_underscores by lia. apply rendered_no_underscore.
    + rewrite (getMessage_ascii_value _ Hra), rendered_rendered.
      rewrite rendered_cons. reflexivity.
Qed.

End Shape.

Lemma getMessage_shape_witness :
  getMessage (fun s => s) (fun s => s) "Duplicate step implementation"
  = Some "Duplicate step implementation".
Proof.
  apply (proj2 (getMessage_shape (fun s => s) (fun s => s) "DUPLICATE_STEP_IMPLEMENTATION"
                  eq_refl) "Duplicate step implementation" eq_refl).
Defined.

End MessageProperties.

Module VisitorProperties.
Import GoString gauge gauge_messages validation Properties.

(** The file of an error is the file of the specification being
    validated, or the file of the concept of the parent of its step. *)
Definition file_accounted (v : specValidator) (e : StepValidationError) : Prop :=
  match Parent (step e) with
  | None => FileName <$> specification v = Some (fileName e)
  | Some p =>
      FileName <$> specification v = Some (fileName e) \/
      ConceptFileName <$> Search (conceptsDictionary v) (Value p) = Some (fileName e)
  end.

(** The calls of a traversal that reach a method with a body. *)
Definition has_body (c : Visit) : bool :=
  match c with
  | VisitSpecHeading | VisitStep _ | VisitContextStep _ => true
  | _ => false
  end.

Section Visitor.

Variable unicode_ToLower unicode_ToUpper : string -> string.
Variable ErrorType_String : StepValidateResponse_ErrorType -> string.
Variable getResponseFromRunner : Message -> specValidator -> option Message * option string.
Variable Traverse : Specification -> list Visit.
Variable Manifest : Type.

Local Abbreviation validateStep :=
  (specValidator_validateStep unicode_ToLower unicode_ToUpper ErrorType_String getResponseFromRunner).
Local Abbreviation validateLiteral :=
  (validation.validateLiteral unicode_ToLower unicode_ToUpper ErrorType_String getResponseFromRunner).
Local Abbreviation validateLeaves :=
  (Properties.validateLeaves unicode_ToLower unicode_ToUpper ErrorType_String getResponseFromRunner).
Local Abbreviation Step :=
  (specValidator_Step unicode_ToLower unicode_ToUpper ErrorType_String getResponseFromRunner).
Local Abbreviation visit :=
  (validation.visit unicode_ToLower unicode_ToUpper ErrorType_String getResponseFromRunner).
Local Abbreviation visitAll :=
  (validation.visitAll unicode_ToLower unicode_ToUpper ErrorType_String getResponseFromRunner).
Local Abbreviation validateEach :=
  (validation.validateEach unicode_ToLower unicode_ToUpper ErrorType_String
     getResponseFromRunner Traverse).
Local Abbreviation validate :=
  (validator_validate unicode_ToLower unicode_ToUpper ErrorType_String
     getResponseFromRunner Traverse Manifest).

Lemma validateStep_file (s : gauge.Step) (v v1 : specValidator) (e : StepValidationError) :
  validateStep s v = Some (Some e, v1) -> step e = s /\ file_accounted v e.
Proof.
  unfold specValidator_validateStep, file_accounted.
  destruct (getResponseFromRunner _ _) as [r [t|]].
  - destruct (specification v) as [spec|]; cbn; [| done]. intros [= <- <-]. cbn.
    split; [done |]. destruct (Parent s); [by left | done].
  - destruct (is_StepValidateResponse _).
    + destruct (negb _); [| done]. destruct (validation.getMessage _ _ _); cbn; [| done].
      destruct (Parent s) as [p|] eqn:Hp.
      * destruct (Search _ _) as [cpt|] eqn:Hc; cbn; [| done].
        destruct (GetStepValidateResponse r); cbn; [| done]. intros [= <- <-]. cbn.
        split; [done |]. rewrite Hp. right. by rewrite Hc.
      * destruct (specification v) as [spec|]; cbn; [| done].
        destruct (GetStepValidateResponse r); cbn; [| done]. intros [= <- <-]. cbn.
        split; [done |]. by rewrite Hp.
    + destruct (specification v) as [spec|]; cbn; [| done]. intros [= <- <-]. cbn.
      split; [done |]. destruct (Parent s); [by left | done].
Qed.

Lemma validateLiteral_file (s : gauge.Step) (v v' : specValidator) :
  validateLiteral s v = Some v' ->
  exists es,
    stepValidationErrors v' = stepValidationErrors v ++ es /\
    (length es <= 1)%nat /\
    Forall (fun e => step e = s /\ file_accounted v e) es.
Proof.
  unfold validation.validateLiteral.
  destruct (stepValidationCache v !! Value s) as [[val|]|].
  - destruct (Parent s) as [p|] eqn:Hp.
    + destruct (Search _ _) as [cpt|] eqn:Hc; cbn; [| done]. intros [= <-].
      eexists [_]. split; [reflexivity |]. split; [cbn; lia |].
      repeat constructor. unfold file_accounted. cbn. rewrite Hp. right. by rewrite Hc.
    + destruct (specification v) as [spec|] eqn:Hs; cbn; [| done]. intros [= <-].
      eexists [_]. split; [reflexivity |]. split; [cbn; lia |].
      repeat constructor. unfold file_accounted. cbn. by rewrite Hp, Hs.
  - intros [= <-]. exists []. rewrite app_nil_r. repeat split; [cbn; lia | constructor].
  - destruct (validateStep s v) as [[[e|] v1]|] eqn:Hv; cbn; [| | done].
    + intros [= <-]. pose proof (validateStep_sent _ _ _ _ _ _ _ _ Hv) as [-> _].
      apply validateStep_file in Hv. exists [e]. split; [reflexivity |].
      split; [cbn; lia |]. constructor; [exact Hv | constructor].
    + intros [= <-]. pose proof (validateStep_sent _ _ _ _ _ _ _ _ Hv) as [-> _].
      exists []. cbn. rewrite app_nil_r. repeat split; [lia | constructor].
Qed.

Lemma file_accounted_same (v v' : specValidator) (e : StepValidationError) :
  specification v' = specification v ->
  conceptsDictionary v' = conceptsDictionary v ->
  file_accounted v' e <-> file_accounted v e.
Proof. intros Hs Hd. unfold file_accounted. by rewrite Hs, Hd. Qed.

(** X4: every error [Step] records for a step, a concept or not, belongs
    to a step under it that is no concept, and names the file of the
    specification being validated or the file of the concept of the parent
    of that step; for a step without parent it is the file of the
    specification, also when the outcome comes from the cache. *)
Theorem errors_name_known_files (s : gauge.Step) (v v' : specValidator) :
  Step s v = Some v' ->
  exists es,
    stepValidationErrors v' = stepValidationErrors v ++ es /\
    (length es <= length (leaves s))%nat /\
    Forall (fun e => step e ∈ leaves s /\ file_accounted v e) es.
Proof.
  rewrite Step_leaves. generalize (leaves s). clear s. intros ls. revert v.
  induction ls as [|l r IH]; intros v.
  - intros [= <-]. exists []. rewrite app_nil_r. repeat split; [cbn; lia | constructor].
  - cbn [Properties.validateLeaves].
    destruct (validateLiteral l v) as [v1|] eqn:H1; cbn [mbind option_bind]; [| done].
    intros H2. destruct (validateLiteral_file _ _ _ H1) as (es1 & He1 & Hn1 & Hf1).
    apply validateLiteral_effect in H1 as (Hs1 & Hd1 & _).
    destruct (IH _ H2) as (es2 & He2 & Hn2 & Hf2).
    exists (es1 ++ es2). split; [by rewrite He2, He1, app_assoc |].
    split; [rewrite length_app; cbn; lia |]. apply Forall_app. split.
    + eapply Forall_impl; [exact Hf1 |]. intros e [-> Hfile]. split; [set_solver | done].
    + eapply Forall_impl; [exact Hf2 |]. intros e [Hin Hfile]. split; [set_solver |].
      by apply (file_accounted_same v v1).
Qed.

(** X5: two steps of one text, neither a concept, visited one after the
    other from a cache without the text: the runner is asked once, for the
    first; the second gets the message and error kind of the first (a
    transport error too is not asked about again) with the file its own
    parent gives it, and nothing when the first got nothing. *)
Theorem second_visit_reuses (s1 s2 : gauge.Step) (v v1 : specValidator)
    (err : option StepValidationError) :
  IsConcept s1 = false -> IsConcept s2 = false ->
  Value s2 = Value s1 ->
  stepValidationCache v !! Value s1 = None ->
  validateStep s1 v = Some (err, v1) ->
  visitAll [VisitStep s1; VisitStep s2] v
  = match err with
    | None => Some (cached (Value s1) None v1)
    | Some e =>
        file ← attributed s2 (specification v) (conceptsDictionary v);
        Some (record (NewValidationError s2 (message e) file (errorType e))
                (cached (Value s1) (Some e) (record e v1)))
    end
  /\ forall v2, visitAll [VisitStep s1; VisitStep s2] v = Some v2 ->
       runner v2 = runner v ++ [validateRequest s1].
Proof.
  intros Hc1 Hc2 Hval Hmiss Hv.
  pose proof (validateStep_sent _ _ _ _ _ _ _ _ Hv) as [-> _].
  assert (visitAll [VisitStep s1; VisitStep s2] v
          = match err with
            | None => Some (cached (Value s1) None (sent (validateRequest s1) v))
            | Some e =>
                file ← attributed s2 (specification v) (conceptsDictionary v);
                Some (record (NewValidationError s2 (message e) file (errorType e))
                        (cached (Value s1) (Some e) (record e (sent (validateRequest s1) v))))
            end) as Heq.
  { cbn [validation.visitAll validation.visit].
    rewrite (Step_literal _ _ _ _ _ _ Hc1). unfold validation.validateLiteral at 1.
    rewrite Hmiss, Hv. cbn [mbind option_bind].
    rewrite (Step_literal _ _ _ _ _ _ Hc2). unfold validation.validateLiteral.
    rewrite Hval. cbn [cached stepValidationCache]. rewrite lookup_insert_eq.
    destruct err as [e|]; [| reflexivity]. unfold attributed.
    cbn [cached record sent specification conceptsDictionary].
    destruct (Parent s2) as [p|].
    - by destruct (Search (conceptsDictionary v) (Value p)).
    - by destruct (specification v). }
  split; [exact Heq |]. intros v2. rewrite Heq. destruct err as [e|].
  - destruct (attributed _ _ _); cbn; [| done]. by intros [= <-].
  - by intros [= <-].
Qed.

(** X6: an answer of the kind of a validation response that carries no
    response makes [validateStep] panic (the error kind is read through a
    nil pointer), and with it the visit of the step and of whatever
    follows it. *)
Theorem response_without_payload_panics (s : gauge.Step) (v : specValidator)
    (r : option Message) :
  getResponseFromRunner (validateRequest s) v = (r, None) ->
  is_StepValidateResponse (GetMessageType r) = true ->
  GetStepValidateResponse r = None ->
  validateStep s v = None
  /\ (IsConcept s = false -> stepValidationCache v !! Value s = None ->
      forall rest, visitAll (VisitStep s :: rest) v = None).
Proof.
  intros Hr Ht Hres.
  assert (validateStep s v = None) as Hv.
  { unfold specValidator_validateStep. rewrite Hr, Ht, Hres. cbn.
    destruct (validation.getMessage _ _ _); cbn; [| done].
    destruct (Parent s).
    - by destruct (Search _ _).
    - by destruct (specification v). }
  split; [exact Hv |]. intros Hc Hmiss rest. cbn [validation.visitAll validation.visit].
  rewrite (Step_literal _ _ _ _ _ _ Hc). unfold validation.validateLiteral.
  by rewrite Hmiss, Hv.
Qed.

(** X7: a run of calls never changes or drops an outcome of the cache and
    never takes back a request: the cache before is part of the cache
    after, whose texts are those before and those of the steps visited;
    the requests before are a prefix of those after; the specification and
    the dictionary stay. *)
Theorem cache_only_grows (cs : list Visit) (v v' : specValidator) :
  visitAll cs v = Some v' ->
  (forall t o, stepValidationCache v !! t = Some o -> stepValidationCache v' !! t = Some o)
  /\ (forall t, is_Some (stepValidationCache v' !! t)
               <-> is_Some (stepValidationCache v !! t) \/ t ∈ map Value (visited cs))
  /\ runner v `prefix_of` runner v'
  /\ (length (runner v') <= length (runner v) + length (visited cs))%nat
  /\ specification v' = specification v
  /\ conceptsDictionary v' = conceptsDictionary v.
Proof.
  intros H. apply visitAll_effect in H as (Hs & Hd & Hsub & Hdom & Hr).
  split; [intros t o Ho; by apply (lookup_weaken _ _ _ _ Ho Hsub) |]. split.
  - intros t. rewrite <- !elem_of_dom, Hdom. unfold values. set_solver.
  - split; [rewrite Hr; by eexists |]. split; [| done].
    rewrite Hr, length_app, length_map.
    pose proof (firsts_sub (dom (stepValidationCache v)) (visited cs)) as Hf.
    assert (forall seen ls, (length (firsts seen ls) <= length ls)%nat) as Hlen.
    { clear. intros seen ls. revert seen. induction ls as [|s r IH]; intros seen; cbn; [lia |].
      case_decide; [specialize (IH seen); lia | cbn; specialize (IH ({[Value s]} ∪ seen)); lia]. }
    specialize (Hlen (dom (stepValidationCache v)) (visited cs)). lia.
Qed.

(** X8: the calls for tags, tables, headings of scenarios, scenarios,
    comments and the tear down marker leave no trace: a traversal and the
    traversal without them give the same validator. *)
Theorem hooks_leave_no_trace (cs : list Visit) (v : specValidator) :
  visitAll cs v = visitAll (List.filter has_body cs) v.
Proof.
  revert v. induction cs as [|c r IH]; intros v; [reflexivity |].
  destruct c; cbn [List.filter has_body validation.visitAll validation.visit mbind option_bind];
    try apply IH.
  - destruct (specValidator_ContextStep _ _ _ _ _ _); cbn; [apply IH | done].
  - destruct (specValidator_Step _ _ _ _ _ _); cbn; [apply IH | done].
Qed.

Definition no_concept_error (e : StepValidationError) : Prop := IsConcept (step e) = false.

Lemma visitAll_no_concept_error (cs : list Visit) (v v' : specValidator) :
  visitAll cs v = Some v' ->
  Forall no_concept_error (stepValidationErrors v) ->
  Forall no_concept_error (stepValidationErrors v').
Proof.
  revert v. induction cs as [|c r IH]; intros v; [by intros [= <-] |].
  cbn [validation.visitAll]. destruct (visit c v) as [v1|] eqn:H1; cbn; [| done].
  intros H2 Hv. apply (IH _ H2).
  assert (forall s, Step s v = Some v1 -> Forall no_concept_error (stepValidationErrors v1)) as Hs.
  { intros s Hstep. rewrite Step_leaves in Hstep.
    apply validateLeaves_effect in Hstep as (_ & _ & _ & _ & _ & es & -> & _ & Hf).
    apply Forall_app. split; [done |]. eapply Forall_impl; [exact Hf |].
    intros e He. by apply (leaves_not_concept s). }
  destruct c; cbn in H1; try (by injection H1 as <-); try (by apply (Hs s)).
Qed.

Lemma validateEach_entries (all specs : list Specification) (status status' : validationErrors)
    (sv sv' : specValidator) :
  validateEach specs status sv = Some (status', sv') ->
  (forall spec, spec ∈ specs -> spec ∈ all) ->
  Forall no_concept_error (stepValidationErrors sv) ->
  (forall a spec errs,
     status !! a = Some (spec, errs) ->
     errs <> [] /\ spec ∈ all /\ spec_addr spec = a /\ Forall no_concept_error errs) ->
  forall a spec errs,
    status' !! a = Some (spec, errs) ->
    errs <> [] /\ spec ∈ all /\ spec_addr spec = a /\ Forall no_concept_error errs.
Proof.
  revert status sv. induction specs as [|spec0 r IH]; intros status sv.
  - by intros [= <- <-].
  - intros H Hall Hsv Hst. cbn [validation.validateEach] in H.
    unfold specValidator_validate in H. cbn [with_specification specification mbind option_bind] in H.
    destruct (visitAll (Traverse spec0) _) as [v1|] eqn:H1; [| done].
    cbn [mbind option_bind] in H.
    pose proof (visitAll_no_concept_error _ _ _ H1 Hsv) as Hv1.
    apply (IH _ _ H); [intros; apply Hall; set_solver | done |].
    intros a spec errs. unfold validationErrors in *.
    destruct (stepValidationErrors v1) as [|e1 es1] eqn:He; cbn [length Nat.eqb]; [apply Hst |].
    destruct (decide (a = spec_addr spec0)) as [->|Hne].
    + rewrite lookup_insert_eq. intros [= <- <-]. repeat split; try done. apply Hall. set_solver.
    + rewrite lookup_insert_ne by done. apply Hst.
Qed.

(** X9: the map [validator.validate] returns holds, under the address of
    a specification it was given, that specification with a list of errors
    that is never empty, and every error in it is for a step that is no
    concept. *)
Theorem validate_result_entries (v : validator Manifest) (status : validationErrors)
    (sv : specValidator) :
  validate v = Some (status, sv) ->
  forall a spec errs,
    status !! a = Some (spec, errs) ->
    errs <> [] /\ spec ∈ specsToExecute v /\ spec_addr spec = a /\
    Forall (fun e => IsConcept (step e) = false) errs.
Proof.
  unfold validator_validate. intros H.
  apply (validateEach_entries (specsToExecute v) _ _ _ _ _ H); [done | constructor |].
  intros a spec errs Hl. unfold validationErrors in *. by rewrite lookup_empty in Hl.
Qed.

(** The runner says of every step that it is valid. *)
Definition all_valid : Prop :=
  forall m v, exists r,
    getResponseFromRunner m v = (r, None) /\
    is_StepValidateResponse (GetMessageType r) = true /\
    GetIsValid (GetStepValidateResponse r) = true.

Definition quiet (v : specValidator) : Prop :=
  stepValidationErrors v = [] /\
  forall t o, stepValidationCache v !! t = Some o -> o = None.

Lemma visitAll_quiet (cs : list Visit) (v : specValidator) :
  all_valid -> quiet v -> exists v', visitAll cs v = Some v' /\ quiet v'.
Proof.
  intros Hvalid. revert v. induction cs as [|c r IH]; intros v Hq; [by exists v |].
  cbn [validation.visitAll].
  assert (forall ls v0, quiet v0 -> exists v', validateLeaves ls v0 = Some v' /\ quiet v') as Hls.
  { clear -Hvalid. induction ls as [|l ls IH]; intros v0 Hq; [by exists v0 |].
    cbn [Properties.validateLeaves]. unfold validation.validateLiteral.
    destruct Hq as [He Hc].
    destruct (stepValidationCache v0 !! Value l) as [o|] eqn:Hl.
    - rewrite (Hc _ _ Hl). cbn [mbind option_bind]. by apply IH.
    - destruct (Hvalid (validateRequest l) v0) as (r0 & Hr & Ht & Hv).
      rewrite (validateStep_valid _ _ _ _ _ _ _ Hr Ht Hv). cbn [mbind option_bind].
      apply IH. split; [done |]. cbn. intros t o.
      destruct (decide (t = Value l)) as [->|Hne].
      + rewrite lookup_insert_eq. by intros [= <-].
      + rewrite lookup_insert_ne by done. apply Hc. }
  assert (exists v1, visit c v = Some v1 /\ quiet v1) as (v1 & H1 & Hq1).
  { destruct c; cbn; try (by exists v);
      try (unfold specValidator_ContextStep; rewrite Step_leaves; by apply Hls).
    eexists. split; [reflexivity |]. destruct Hq as [_ Hc]. by split. }
  rewrite H1. cbn [mbind option_bind]. by apply IH.
Qed.

(** X10: when the runner says of every step that it is valid,
    [validator.validate] goes through (no dictionary or payload is looked
    at) and returns the empty map. *)
Theorem all_valid_no_errors (v : validator Manifest) :
  all_valid ->
  exists sv, validate v = Some (∅, sv) /\ stepValidationErrors sv = [].
Proof.
  intros Hvalid. unfold validator_validate.
  set (sv0 := mkSpecValidator _ _ _ _ _).
  assert (quiet sv0) as Hq0.
  { split; [done |]. intros t o Hl. subst sv0. cbn in Hl. by rewrite lookup_empty in Hl. }
  generalize (∅ : validationErrors) as status.
  revert Hq0. generalize sv0. clear sv0.
  induction (specsToExecute v) as [|spec r IH]; intros sv Hq status.
  - exists sv. split; [reflexivity | apply Hq].
  - cbn [validation.validateEach]. unfold specValidator_validate.
    cbn [with_specification specification mbind option_bind].
    destruct (visitAll_quiet (Traverse spec) (with_specification spec sv) Hvalid) as (v1 & H1 & Hq1).
    { destruct Hq as [He Hc]. by split. }
    rewrite H1. cbn [mbind option_bind]. destruct Hq1 as [He1 Hc1]. rewrite He1.
    cbn [length Nat.eqb]. apply IH. by split.
Qed.

End Visitor.
End VisitorProperties.

Module AggregatorProperties.
Import gauge gauge_messages validation Properties.

Lemma loaded_lookup (es : list StepValidationError) (F : gmap addr StepValidationError)
    (a : addr) (e : StepValidationError) :
  loaded es F !! a = Some e ->
  (e ∈ es /\ step_addr (step e) = a) \/ F !! a = Some e.
Proof.
  unfold loaded. revert F. induction es as [|x r IH]; intros F; [by right |].
  cbn [fold_left]. intros H. apply IH in H as [[Hin Ha]|H]; [left; set_solver |].
  destruct (decide (a = step_addr (step x))) as [->|Hne].
  - rewrite lookup_insert_eq in H. injection H as <-. left. set_solver.
  - rewrite lookup_insert_ne in H by done. by right.
Qed.

Lemma loaded_is_Some (es : list StepValidationError) (F : gmap addr StepValidationError)
    (a : addr) :
  is_Some (F !! a) \/ a ∈ map (fun e => step_addr (step e)) es -> is_Some (loaded es F !! a).
Proof.
  unfold loaded. revert F. induction es as [|x r IH]; intros F; cbn [fold_left map].
  - intros [H|H]; [done | by apply elem_of_nil in H].
  - intros H. apply IH. destruct (decide (a = step_addr (step x))) as [->|Hne].
    + left. by rewrite lookup_insert_eq.
    + rewrite lookup_insert_ne by done. set_solver.
Qed.

Lemma failing_from (F : gmap addr StepValidationError) (steps : list gauge.Step)
    (e : StepValidationError) :
  e ∈ failing F steps -> exists s, s ∈ flat_map walk steps /\ F !! step_addr s = Some e.
Proof. unfold failing. intros (s & Hs & He)%list_elem_of_omap. eauto. Qed.

(** Every list of a map of lists holds an error, and only errors of [given]. *)
Definition lists_from (given : list StepValidationError)
    (m : gmap addr (list StepValidationError)) : Prop :=
  forall a l, m !! a = Some l -> l <> [] /\ forall e, e ∈ l -> e ∈ given.

(** Every error of the map of the steps is in [given], under its own step. *)
Definition steps_from (given : list StepValidationError) (F : gmap addr StepValidationError)
  : Prop :=
  forall a e, F !! a = Some e -> e ∈ given /\ step_addr (step e) = a.

Lemma appended_from (given : list StepValidationError) (old : option (list StepValidationError))
    (errs l : list StepValidationError) :
  (forall l0, old = Some l0 -> l0 <> [] /\ forall e, e ∈ l0 -> e ∈ given) ->
  (forall e, e ∈ errs -> e ∈ given) ->
  appended old errs = Some l -> l <> [] /\ forall e, e ∈ l -> e ∈ given.
Proof.
  intros Hold Herrs. destruct errs as [|x r]; cbn; [by apply Hold |].
  intros [= <-]. split; [by destruct (default [] old) |].
  intros e [Hin|Hin]%elem_of_app; [| by apply Herrs].
  destruct old as [l0|]; cbn in Hin; [by apply (Hold l0) | by apply elem_of_nil in Hin].
Qed.

Lemma failing_in (given : list StepValidationError) (F : gmap addr StepValidationError)
    (steps : list gauge.Step) :
  steps_from given F -> forall e, e ∈ failing F steps -> e ∈ given.
Proof. intros HF e (s & _ & Hs)%failing_from. by apply (HF _ _ Hs). Qed.

Lemma countSkipped_lists (given : list StepValidationError) (scenarios : list Scenario)
    (errMap : ValidationErrMaps) (k : nat) :
  steps_from given (StepErrs errMap) ->
  lists_from given (ScenarioErrs errMap) ->
  lists_from given (ScenarioErrs (countSkipped_from scenarios errMap k).1) /\
  (forall a, is_Some (ScenarioErrs errMap !! a) ->
     is_Some (ScenarioErrs (countSkipped_from scenarios errMap k).1 !! a)) /\
  ((countSkipped_from scenarios errMap k).2 <= k + length scenarios)%nat /\
  ((countSkipped_from scenarios errMap k).2 = (k + length scenarios)%nat ->
   forall scn, scn ∈ scenarios ->
     is_Some (ScenarioErrs (countSkipped_from scenarios errMap k).1 !! scenario_addr scn)).
Proof.
  revert errMap k. induction scenarios as [|scn r IH]; intros errMap k HF HL.
  - cbn. split; [exact HL |]. split; [done |]. split; [lia |].
    intros _ scn Hin. by apply elem_of_nil in Hin.
  - unfold countSkipped_from. cbn [fold_left]. rewrite fillScenarioErrors_flat.
    set (em1 := add_ScenarioErrs scn _ errMap).
    set (k1 := match _ with Some _ => _ | None => _ end).
    fold (countSkipped_from r em1 k1).
    destruct (add_ScenarioErrs_lookup scn (failing (StepErrs errMap) (Steps scn)) errMap)
      as [_ Hl]. fold em1 in Hl.
    assert (StepErrs em1 = StepErrs errMap) as HF1 by apply add_ScenarioErrs_StepErrs.
    assert (lists_from given (ScenarioErrs em1)) as HL1.
    { intros a l. rewrite Hl. case_decide; [| apply HL].
      apply appended_from; [apply HL | by apply failing_in]. }
    assert (forall a, is_Some (ScenarioErrs errMap !! a) -> is_Some (ScenarioErrs em1 !! a))
      as Hmono1.
    { intros a [l Ha]. rewrite Hl, Ha. case_decide; [| done].
      by destruct (failing (StepErrs errMap) (Steps scn)). }
    destruct (IH em1 k1) as (H1 & H2 & H3 & H4); [by rewrite HF1 | done |].
    assert (k1 <= S k)%nat as Hk1 by (subst k1; destruct (_ !! _); lia).
    split; [done |]. split; [intros a Ha; by apply H2, Hmono1 |]. cbn [length].
    split; [lia |]. intros Heq scn' [->|Hin]%elem_of_cons.
    + apply H2. assert (k1 = S k) as Hk by lia. subst k1.
      destruct (ScenarioErrs em1 !! scenario_addr scn); [done | lia].
    + apply H4; [lia | done].
Qed.

Lemma getErrMap_entry_from (given : list StepValidationError) (spec : Specification)
    (errors : list StepValidationError) (errMap : ValidationErrMaps) :
  (forall e, e ∈ errors -> e ∈ given) ->
  steps_from given (StepErrs errMap) ->
  lists_from given (ScenarioErrs errMap) ->
  lists_from given (SpecErrs errMap) ->
  steps_from given (StepErrs (getErrMap_entry (spec, errors) errMap)) /\
  lists_from given (ScenarioErrs (getErrMap_entry (spec, errors) errMap)) /\
  lists_from given (SpecErrs (getErrMap_entry (spec, errors) errMap)).
Proof.
  intros Herrs HF Hscn Hspec.
  assert (steps_from given (loaded errors (StepErrs errMap))) as HF1.
  { intros a e [[Hin Ha]|H]%loaded_lookup; [split; [by apply Herrs | done] | by apply HF]. }
  destruct (getErrMap_entry_frame spec errors errMap) as (HS & _ & _).
  split; [by rewrite HS |].
  unfold getErrMap_entry. rewrite load_errors. set (em1 := mkValidationErrMaps _ _ _).
  change (countSkipped (Scenarios spec) em1) with (countSkipped_from (Scenarios spec) em1 O).
  pose proof (countSkipped_frame (Scenarios spec) em1 O) as (C1 & C2 & _).
  pose proof (countSkipped_lists given (Scenarios spec) em1 O HF1 Hscn) as (L1 & _ & _ & L4).
  destruct (countSkipped_from (Scenarios spec) em1 O) as [em2 k]. cbn [fst snd] in *.
  match goal with |- context [fillSpecErrors spec ?e _] => set (em3 := e) end.
  assert (StepErrs em3 = loaded errors (StepErrs errMap) /\
          ScenarioErrs em3 = ScenarioErrs em2 /\ lists_from given (SpecErrs em3)) as (E1 & E2 & E3).
  { subst em3. destruct (_ && _) eqn:Hcond; [| by rewrite C1, C2].
    destruct (Scenarios spec) as [|first rest] eqn:Hscns; [by rewrite C1, C2 |].
    cbn [add_SpecErrs StepErrs ScenarioErrs SpecErrs]. rewrite C2.
    split; [done |]. split; [done |].
    apply andb_true_iff in Hcond as [_ Hk%Nat.eqb_eq].
    destruct (L4 Hk first ltac:(set_solver)) as [lf Hl]. rewrite Hl. cbn [default].
    destruct (L1 _ _ Hl) as [Hne Hin]. intros a l0. unfold append_at.
    destruct (decide (a = spec_addr spec)) as [->|Hna].
    - rewrite lookup_insert_eq. intros [= <-]. split; [by destruct (default [] _), lf |].
      intros e [He|He]%elem_of_app; [| by apply Hin]. rewrite C1 in He.
      destruct (SpecErrs em1 !! spec_addr spec) as [l1|] eqn:Hl1; cbn in He;
        [by apply (Hspec _ _ Hl1) | by apply elem_of_nil in He].
    - rewrite lookup_insert_ne, C1 by done. apply Hspec. }
  rewrite fillSpecErrors_flat.
  destruct (add_ContextErrs_lookup spec
              (failing (StepErrs em3) (Contexts spec ++ TearDownSteps spec)) em3) as [A1 A2].
  assert (forall e, e ∈ failing (StepErrs em3) (Contexts spec ++ TearDownSteps spec) -> e ∈ given)
    as Hctx by (rewrite E1; by apply failing_in).
  split.
  - intros a l. rewrite A2, E2. destruct (ScenarioErrs em2 !! a) as [l0|] eqn:Ha.
    + intros [= <-]. by apply (L1 _ _ Ha).
    + destruct (failing _ _) as [|e0 r0]; [done |]. case_decide; [| done].
      intros [= <-]. split; [done |]. intros e ->%list_elem_of_singleton. apply Hctx. set_solver.
  - intros a l. rewrite A1. case_decide; [| apply E3].
    apply appended_from; [apply E3 | exact Hctx].
Qed.

(** X11: [getErrMap] makes up no error and keeps no empty list: every
    error of the map of the steps is one of the errors it was given and
    stands under its own step, every step with an error given is a key of
    that map, and every list of the maps of the scenarios and of the
    specifications holds at least one error, all of them among the errors
    given. *)
Theorem getErrMap_only_given_errors (entries : list (Specification * list StepValidationError)) :
  (forall a e,
     StepErrs (getErrMap entries) !! a = Some e ->
     e ∈ flat_map snd entries /\ step_addr (step e) = a)
  /\ (forall e, e ∈ flat_map snd entries ->
        is_Some (StepErrs (getErrMap entries) !! step_addr (step e)))
  /\ (forall a l,
        ScenarioErrs (getErrMap entries) !! a = Some l ->
        l <> [] /\ forall e, e ∈ l -> e ∈ flat_map snd entries)
  /\ (forall a l,
        SpecErrs (getErrMap entries) !! a = Some l ->
        l <> [] /\ forall e, e ∈ l -> e ∈ flat_map snd entries).
Proof.
  assert (forall given done em,
            (forall e, e ∈ flat_map snd done -> e ∈ given) ->
            steps_from given (StepErrs em) -> lists_from given (ScenarioErrs em) ->
            lists_from given (SpecErrs em) ->
            steps_from given (StepErrs (getErrMap_from done em)) /\
            lists_from given (ScenarioErrs (getErrMap_from done em)) /\
            lists_from given (SpecErrs (getErrMap_from done em))) as Hfold.
  { intros given done. induction done as [|[spec errs] r IH]; intros em HS H1 H2 H3; [done |].
    unfold getErrMap_from. cbn [fold_left]. fold (getErrMap_from r (getErrMap_entry (spec, errs) em)).
    destruct (getErrMap_entry_from given spec errs em) as (G1 & G2 & G3); try done.
    { intros e He. apply HS. cbn. set_solver. }
    apply IH; try done. intros e He. apply HS. cbn. set_solver. }
  change (getErrMap entries) with (getErrMap_from entries NewValidationErrMaps).
  destruct (Hfold (flat_map snd entries) entries NewValidationErrMaps) as (H1 & H2 & H3);
    try done; try (intros a l Hl; by rewrite lookup_empty in Hl).
  split; [exact H1 |]. split; [| split; [exact H2 | exact H3]].
  intros e He. destruct (getErrMap_from_frame entries NewValidationErrMaps) as (-> & _ & _).
  apply loaded_is_Some. right.
  by apply (list_elem_of_fmap_2 (fun x => step_addr (step x))).
Qed.

(** X12: [getErrMap] gives an entry to no specification and to no scenario
    outside the entries it was given. *)
Theorem getErrMap_keys (entries : list (Specification * list StepValidationError)) (a : addr) :
  (is_Some (SpecErrs (getErrMap entries) !! a) -> a ∈ entry_spec_addrs entries)
  /\ (is_Some (ScenarioErrs (getErrMap entries) !! a) -> a ∈ entry_scenario_addrs entries).
Proof.
  change (getErrMap entries) with (getErrMap_from entries NewValidationErrMaps).
  destruct (getErrMap_from_frame entries NewValidationErrMaps) as (_ & H1 & H2).
  split.
  - intros Hs. destruct (decide (a ∈ entry_spec_addrs entries)) as [|Hn]; [done |].
    rewrite (H1 a Hn) in Hs. cbn in Hs. rewrite lookup_empty in Hs. by destruct Hs.
  - intros Hs. destruct (decide (a ∈ entry_scenario_addrs entries)) as [|Hn]; [done |].
    rewrite (H2 a Hn) in Hs. cbn in Hs. rewrite lookup_empty in Hs. by destruct Hs.
Qed.

(** X13: in the result of [getErrMap] (entries that share no specification
    and no scenario) a scenario with failing steps holds exactly their
    errors, in the order of the walk (the steps of the body of a concept
    before the concept), and never an error of a context; a scenario
    without failing steps holds the first error of the contexts and the tear
    down alone, or has no entry when there is none. *)
Theorem scenario_lists (before after : list (Specification * list StepValidationError))
    (spec : Specification) (errs : list StepValidationError) (scn : Scenario) :
  NoDup (entry_spec_addrs (before ++ (spec, errs) :: after)) ->
  NoDup (entry_scenario_addrs (before ++ (spec, errs) :: after)) ->
  scn ∈ Scenarios spec ->
  (failing (failures_known before errs) (Steps scn) <> [] ->
   ScenarioErrs (getErrMap (before ++ (spec, errs) :: after)) !! scenario_addr scn
   = Some (failing (failures_known before errs) (Steps scn)))
  /\ (failing (failures_known before errs) (Steps scn) = [] ->
      ScenarioErrs (getErrMap (before ++ (spec, errs) :: after)) !! scenario_addr scn
      = (fun e => [e])
          <$> head (failing (failures_known before errs)
                      (Contexts spec ++ TearDownSteps spec)))
  /\ (forall F s r,
        failing F (s :: r)
        = (if IsConcept s then failing F (ConceptSteps s) else [])
          ++ match F !! step_addr s with Some e => [e] | None => [] end
          ++ failing F r).
Proof.
  intros Hs Hc Hin. destruct (getErrMap_at before after spec errs Hs Hc) as (_ & _ & H).
  rewrite (H scn Hin). split; [| split; [| exact failing_cons]].
  - by destruct (failing (failures_known before errs) (Steps scn)).
  - intros ->. by destruct (failing _ _).
Qed.

(** X14: in the result of [getErrMap] (entries that share no specification
    and no scenario) the list of a specification is: the errors of its
    first scenario, when every scenario has a failing step, followed by
    the errors of the failing steps of the contexts and the tear down in
    their order; it has no entry when both are empty. *)
Theorem specification_list (before after : list (Specification * list StepValidationError))
    (spec : Specification) (errs : list StepValidationError) :
  NoDup (entry_spec_addrs (before ++ (spec, errs) :: after)) ->
  NoDup (entry_scenario_addrs (before ++ (spec, errs) :: after)) ->
  (every_scenario_failed (failures_known before errs) spec ->
   exists first rest,
     Scenarios spec = first :: rest /\
     SpecErrs (getErrMap (before ++ (spec, errs) :: after)) !! spec_addr spec
     = Some (failing (failures_known before errs) (Steps first)
             ++ failing (failures_known before errs) (Contexts spec ++ TearDownSteps spec)))
  /\ (~ every_scenario_failed (failures_known before errs) spec ->
      SpecErrs (getErrMap (before ++ (spec, errs) :: after)) !! spec_addr spec
      = match failing (failures_known before errs) (Contexts spec ++ TearDownSteps spec) with
        | [] => None
        | ctx => Some ctx
        end).
Proof.
  intros Hs Hc. destruct (getErrMap_at before after spec errs Hs Hc) as (_ & H & _).
  rewrite H. split.
  - intros Hall. destruct (rolled_up_all _ _ Hall) as (first & rest & Hscns & -> & Hne).
    exists first, rest. split; [done |].
    by destruct (failing (failures_known before errs) (Steps first)).
  - intros Hn. rewrite (rolled_up_not_all _ _ Hn). cbn [app]. by destruct (failing _ _).
Qed.

End AggregatorProperties.

(** ** The command [Validate] *)

Module command.
Import GoString gauge gauge_messages validation.

(** How [Validate] ends: with [os.Exit], or by returning. *)
Inductive Ending : Type :=
  | Exit (code : Z)
  | Return.

(** What [Validate] does to the world outside: what [ValidateSpecs] does,
    and the lines it logs itself. *)
Inductive Happening : Type :=
  | Did (e : Effect)
  | LogInfo (text : string).

(** [strings.Join]. *)
Fixpoint Join (elems : list string) (sep : string) : string :=
  match elems with
  | [] => EmptyString
  | [x] => x
  | x :: r => x +:+ sep +:+ Join r sep
  end.

Section Command.

Variable unicode_ToLower unicode_ToUpper : string -> string.
Variable ErrorType_String : StepValidateResponse_ErrorType -> string.
Variable getResponseFromRunner : Message -> specValidator -> option Message * option string.
Variable Traverse : Specification -> list Visit.
Variable Manifest : Type.
Variable ProjectManifest : option Manifest * option string.
Variable ParseConcepts : ConceptDictionary * ParseResult.
Variable ParseSpecs : list string -> ConceptDictionary -> list Specification * bool.
Variable runnerStarts : bool -> bool.
Variable rangeOver : validationErrors -> list (Specification * list StepValidationError).

(** [common.SpecsDirectoryName]. *)
Variable SpecsDirectoryName : string.

(** Modelled from the spec: [gauge.SpecCollection] and its [Size] are not
    part of this package; the collection made of the specifications that
    were parsed has as many members as there are specifications. *)
Definition Size (specs : list Specification) : nat := length specs.

Definition with_default (args : list string) : list string :=
  if (length args =? 0)%nat then args ++ [SpecsDirectoryName] else args.

(** [Validate]: how it ends and what happened; [None] when a panic or
    [logger.Fatalf] ended the process before. *)
Definition Validate (args : list string) : option (Ending * list Happening) :=
  let args := with_default args in
  '(res, effects) ← ValidateSpecs unicode_ToLower unicode_ToUpper ErrorType_String
                      getResponseFromRunner Traverse Manifest ProjectManifest ParseConcepts
                      ParseSpecs runnerStarts rangeOver args false;
  let did := map Did effects in
  if (0 <? length (Errs res))%nat then Some (Exit 1, did)
  else
    specs ← SpecCollection res;
    if (Size specs <? 1)%nat
    then
      _ ← Runner_ res;
      Some (Exit 0,
            did ++ [LogInfo ("No specifications found in " +:+ Join args ", " +:+ "."); Did Kill])
    else
      _ ← Runner_ res;
      errMap ← ErrMap res;
      if (0 <? size (StepErrs errMap))%nat
      then Some (Exit 1, did ++ [Did Kill])
      else Some (Return, did ++ [Did Kill; LogInfo "No error found."]).

End Command.
End command.

Module CommandProperties.
Import GoString gauge gauge_messages validation Properties command.

(** The effects that need no runner, and those between its start and its
    end. *)
Definition offline (e : Effect) : Prop :=
  match e with
  | LogError _ | LogValidationError _ => True
  | _ => False
  end.

Definition traffic (e : Effect) : Prop :=
  match e with
  | Request _ | LogValidationError _ => True
  | _ => False
  end.

Definition effects_of (hs : list Happening) : list Effect :=
  omap (fun h => match h with Did e => Some e | LogInfo _ => None end) hs.

Lemma effects_of_Did (es : list Effect) : effects_of (map Did es) = es.
Proof. unfold effects_of. induction es as [|e r IH]; [done |]. cbn. by rewrite IH. Qed.

Lemma effects_of_cons (e : Effect) (hs : list Happening) :
  effects_of (Did e :: hs) = e :: effects_of hs.
Proof. reflexivity. Qed.

Lemma effects_of_app (h1 h2 : list Happening) :
  effects_of (h1 ++ h2) = effects_of h1 ++ effects_of h2.
Proof. unfold effects_of. apply omap_app. Qed.

Section Command.

Variable unicode_ToLower unicode_ToUpper : string -> string.
Variable ErrorType_String : StepValidateResponse_ErrorType -> string.
Variable getResponseFromRunner : Message -> specValidator -> option Message * option string.
Variable Traverse : Specification -> list Visit.
Variable Manifest : Type.
Variable ProjectManifest : option Manifest * option string.
Variable ParseConcepts : ConceptDictionary * ParseResult.
Variable ParseSpecs : list string -> ConceptDictionary -> list Specification * bool.
Variable runnerStarts : bool -> bool.
Variable rangeOver : validationErrors -> list (Specification * list StepValidationError).
Variable SpecsDirectoryName : string.

Local Abbreviation ValidateSpecs :=
  (validation.ValidateSpecs unicode_ToLower unicode_ToUpper ErrorType_String
     getResponseFromRunner Traverse Manifest ProjectManifest ParseConcepts ParseSpecs
     runnerStarts rangeOver).
Local Abbreviation validate :=
  (validator_validate unicode_ToLower unicode_ToUpper ErrorType_String
     getResponseFromRunner Traverse Manifest).
Local Abbreviation Validate :=
  (command.Validate unicode_ToLower unicode_ToUpper ErrorType_String
     getResponseFromRunner Traverse Manifest ProjectManifest ParseConcepts ParseSpecs
     runnerStarts rangeOver SpecsDirectoryName).

Lemma printed_traffic (vErrs : validationErrors) :
  Forall traffic (if (0 <? size vErrs)%nat then printValidationFailures rangeOver vErrs else []).
Proof.
  destruct (0 <? size vErrs)%nat; [| constructor]. unfold printValidationFailures.
  apply Forall_forall. intros e (entry & _ & He)%list_elem_of_In%in_flat_map.
  apply in_map_iff in He as (x & <- & _). exact I.
Qed.

(** What [ValidateSpecs] leaves behind: nothing but log lines and no
    result to go on with, or a runner that was started and asked, and
    either killed (with errors returned) or handed on (without). *)
Lemma ValidateSpecs_shape (args : list string) (debug : bool) (res : ValidationResult)
    (effs : list Effect) :
  ValidateSpecs args debug = Some (res, effs) ->
  (Errs res <> [] /\ Forall offline effs)
  \/ (Errs res <> [] /\
      exists body, effs = StartAPI debug :: body ++ [Kill] /\ Forall traffic body)
  \/ (Errs res = [] /\
      exists specs errMap r body,
        res = NewValidationResult (Some specs) (Some errMap) (Some r) [] /\
        effs = StartAPI debug :: body /\ Forall traffic body).
Proof.
  unfold validation.ValidateSpecs. destruct ProjectManifest as [m [e|]].
  { intros [= <- <-]. left. split; [done |]. by repeat constructor. }
  destruct ParseConcepts as [dict res0].
  destruct (CriticalErrors res0) as [|c cs] eqn:Hc; cbn [length Nat.ltb Nat.leb].
  2:{ intros [= <- <-]. left. split; [done | constructor]. }
  destruct (ParseSpecs args dict) as [s specsFailed].
  destruct (startAPI runnerStarts debug) as [r|]; cbn [mbind option_bind]; [| done].
  destruct (validator_validate _ _ _ _ _ _ _) as [[vErrs sv]|]; cbn [mbind option_bind]; [| done].
  assert (Forall traffic (map Request (runner sv)
                          ++ (if (0 <? size vErrs)%nat
                              then printValidationFailures rangeOver vErrs else []))) as Hbody.
  { apply Forall_app. split; [| apply printed_traffic].
    apply Forall_forall. intros e (x & -> & _)%list_elem_of_fmap. exact I. }
  destruct (specsFailed || negb (Ok res0)); intros [= <- <-].
  - right. left. split; [done |]. eexists. split; [| exact Hbody].
    cbn [app]. by rewrite <- app_assoc.
  - right. right. split; [done |]. do 3 eexists. eexists. split; [reflexivity |].
    split; [reflexivity | exact Hbody].
Qed.

(** X15: whenever [Validate] ends, by an exit or by returning, the runner
    was either never started (and nothing was asked of it), or it was
    started once, first of all, and killed once, last of all, with nothing
    but requests and printed failures in between. *)
Theorem Validate_releases_runner (args : list string) (ending : Ending)
    (hs : list Happening) :
  Validate args = Some (ending, hs) ->
  Forall offline (effects_of hs)
  \/ exists body,
       effects_of hs = StartAPI false :: body ++ [Kill] /\ Forall traffic body.
Proof.
  unfold command.Validate.
  destruct (ValidateSpecs _ false) as [[res effs]|] eqn:Hv; cbn [mbind option_bind]; [| done].
  apply ValidateSpecs_shape in Hv
    as [[Hne Hoff]|[(Hne & body & -> & Hb)|(He & specs & errMap & r & body & -> & -> & Hb)]].
  - destruct (Errs res); [done |]. cbn [length Nat.ltb Nat.leb]. intros [= <- <-].
    left. by rewrite effects_of_Did.
  - destruct (Errs res); [done |]. cbn [length Nat.ltb Nat.leb]. intros [= <- <-].
    right. exists body. by rewrite ?effects_of_cons, effects_of_Did.
  - cbn [NewValidationResult Errs SpecCollection Runner_ ErrMap length Nat.ltb Nat.leb
         mbind option_bind].
    intros H. right. exists body. split; [| done].
    destruct (Size specs <=? 0)%nat.
    + injection H as <- <-. cbn [map app].
      by rewrite effects_of_cons, effects_of_app, effects_of_Did.
    + destruct (size (StepErrs errMap)); injection H as <- <-; cbn [map app];
        by rewrite effects_of_cons, effects_of_app, effects_of_Did.
Qed.

Lemma some_error_some_step (vErrs : validationErrors) :
  (forall m entry, (exists a, m !! a = Some entry) -> entry ∈ rangeOver m) ->
  (forall a spec errs, vErrs !! a = Some (spec, errs) -> errs <> []) ->
  vErrs <> ∅ ->
  (0 < size (StepErrs (getErrMap (rangeOver vErrs))))%nat.
Proof.
  intros Hrange Hne Hmap. unfold validationErrors in *.
  apply map_choose in Hmap as (a & [spec errs] & Ha).
  destruct errs as [|e errs'] eqn:He; [by destruct (Hne _ _ _ Ha) |].
  assert (e ∈ flat_map snd (rangeOver vErrs)) as Hin.
  { apply list_elem_of_In, in_flat_map. exists (spec, e :: errs'). split.
    - apply list_elem_of_In, Hrange. by exists a.
    - by left. }
  change (getErrMap (rangeOver vErrs))
    with (getErrMap_from (rangeOver vErrs) NewValidationErrMaps).
  destruct (getErrMap_from_frame (rangeOver vErrs) NewValidationErrMaps) as (-> & _ & _).
  destruct (AggregatorProperties.loaded_is_Some (flat_map snd (rangeOver vErrs)) ∅
              (step_addr (step e))) as [x Hx].
  { right. by apply (list_elem_of_fmap_2 (fun y => step_addr (step y))). }
  cbn [StepErrs NewValidationErrMaps].
  destruct (size (loaded _ ∅)) eqn:Hsz; [| lia].
  apply map_size_empty_iff in Hsz. rewrite Hsz in Hx. by rewrite lookup_empty in Hx.
Qed.

(** X16: with a manifest, concepts without critical errors, a runner that
    comes up and a validation that goes through, [Validate] exits with 1
    when the parsing of the specifications failed or the concepts are not
    Ok; otherwise with 0 when no specification was found; otherwise it
    returns when no specification has a validation error and exits with 1
    when one has. *)
Theorem Validate_exit_status (args : list string) (vErrs : validationErrors)
    (sv : specValidator) :
  ProjectManifest.2 = None ->
  CriticalErrors ParseConcepts.2 = [] ->
  runnerStarts false = true ->
  (forall m entry, (exists a, m !! a = Some entry) -> entry ∈ rangeOver m) ->
  validate (newValidator Manifest ProjectManifest.1
              (ParseSpecs (with_default SpecsDirectoryName args) ParseConcepts.1).1 []
              ParseConcepts.1) = Some (vErrs, sv) ->
  exists hs,
    Validate args
    = Some (if (ParseSpecs (with_default SpecsDirectoryName args) ParseConcepts.1).2
               || negb (Ok ParseConcepts.2)
            then Exit 1
            else match (ParseSpecs (with_default SpecsDirectoryName args) ParseConcepts.1).1 with
                 | [] => Exit 0
                 | _ :: _ => if decide (vErrs = ∅) then Return else Exit 1
                 end,
            hs).
Proof.
  intros Hm Hc Hstart Hrange Hv. unfold command.Validate, validation.ValidateSpecs.
  destruct ProjectManifest as [m err]. cbn in Hm. subst err.
  destruct ParseConcepts as [dict res0]. cbn [fst snd] in *. rewrite Hc.
  cbn [length]. change (0 <? 0)%nat with false. cbn match.
  destruct (ParseSpecs (with_default SpecsDirectoryName args) dict) as [s specsFailed].
  cbn [fst snd] in *. unfold startAPI. rewrite Hstart. cbn [mbind option_bind].
  rewrite Hv. cbn [mbind option_bind].
  destruct (specsFailed || negb (Ok res0)); [by eexists |].
  cbn [NewValidationResult Errs SpecCollection Runner_ ErrMap length mbind option_bind].
  change (0 <? 0)%nat with false. cbn match.
  destruct s as [|spec0 s']; [by eexists |].
  change (Size (spec0 :: s') <? 1)%nat with false. cbn match. cbn [mbind option_bind].
  case_decide as Hempty.
  - assert (size vErrs = 0%nat) as -> by (by apply map_size_empty_iff).
    change (0 <? 0)%nat with false. cbn match.
    change (size (StepErrs NewValidationErrMaps)) with (size (∅ : gmap addr StepValidationError)).
    rewrite map_size_empty. by eexists.
  - assert (0 < size vErrs)%nat as Hpos.
    { destruct (size vErrs) eqn:Hsz; [| lia]. by apply map_size_empty_iff in Hsz. }
    apply Nat.ltb_lt in Hpos. rewrite Hpos.
    assert (0 < size (StepErrs (getErrMap (rangeOver vErrs))))%nat as Hsteps.
    { apply some_error_some_step; [done | | done]. intros a spec errs Hl.
      unfold validator_validate in Hv.
      eapply (VisitorProperties.validateEach_entries _ _ _ _ _ (spec0 :: s'));
        [exact Hv | done | constructor | | exact Hl].
      intros a0 spec1 errs1 Hl1. unfold validationErrors in *. by rewrite lookup_empty in Hl1. }
    apply Nat.ltb_lt in Hsteps. rewrite Hsteps. by eexists.
Qed.

End Command.
End CommandProperties.

(** * The small project again *)

Module MoreExamples.
Import GoString gauge gauge_messages validation Properties Examples.
Import VisitorProperties AggregatorProperties command CommandProperties.

Definition timing_out_first : gauge.Step := literal 7%positive 9 "time out" None.

(** A runner whose validation responses carry no response. *)
Definition answer_bare (m : Message) (v : specValidator) : option Message * option string :=
  (Some {| MessageType := Some Message_StepValidateResponse;
           StepValidateRequest_ := None;
           StepValidateResponse_ := None |}, None).

(** A runner that knows every step. *)
Definition answer_valid (m : Message) (v : specValidator) : option Message * option string :=
  (Some (response true None), None).

Definition errors_a : list StepValidationError :=
  [not_found missing "specs/a.spec"; not_found missing_in_concept "concepts/greet.cpt"].

Definition all_parsed (args : list string) (dict : ConceptDictionary)
  : list Specification * bool :=
  ([spec_a; spec_b], false).

Definition Validate_example (args : list string) :=
  Validate same same names answer_valid traverse unit manifest_found concepts_parsed
    all_parsed comes_up by_address "specs" args.

Lemma errors_name_known_files_witness :
  exists v' es,
    specValidator_Step same same names answer greet (fresh spec_b) = Some v' /\
    stepValidationErrors v' = [] ++ es /\
    Forall (fun e => step e ∈ leaves greet /\ file_accounted (fresh spec_b) e) es.
Proof.
  assert (is_Some (specValidator_Step same same names answer greet (fresh spec_b)))
    as [v' Hv] by (vm_compute; eauto).
  destruct (errors_name_known_files same same names answer greet (fresh spec_b) v' Hv)
    as (es & He & _ & Hf).
  exists v', es. by repeat split.
Defined.

(** The request for the first step times out; the second step, in the
    concept, is not asked about and gets the same message with the file of
    the concept. *)
Lemma second_visit_reuses_witness :
  exists v2,
    visitAll same same names answer [VisitStep timing_out_first; VisitStep timing_out]
      (fresh spec_a) = Some v2 /\
    runner v2 = [validateRequest timing_out_first] /\
    map (fun e => (message e, fileName e)) (stepValidationErrors v2)
    = [("connection timed out", "specs/a.spec"); ("connection timed out", "concepts/greet.cpt")].
Proof.
  destruct (second_visit_reuses same same names answer timing_out_first timing_out
              (fresh spec_a) (sent (validateRequest timing_out_first) (fresh spec_a))
              (Some (NewValidationError timing_out_first "connection timed out"
                       "specs/a.spec" None))
              eq_refl eq_refl eq_refl eq_refl eq_refl) as [Heq _].
  eexists. split; [rewrite Heq; vm_compute; reflexivity |]. split; vm_compute; reflexivity.
Defined.

Lemma response_without_payload_panics_witness :
  specValidator_validateStep same same names answer_bare hello (fresh spec_a) = None.
Proof.
  exact (proj1 (response_without_payload_panics same same names answer_bare hello
                  (fresh spec_a) _ eq_refl eq_refl eq_refl)).
Defined.

Lemma cache_only_grows_witness :
  exists v',
    visitAll same same names answer (traverse spec_a) (fresh spec_a) = Some v' /\
    specification v' = Some spec_a /\
    (length (runner v') <= 0 + length (visited (traverse spec_a)))%nat.
Proof.
  assert (is_Some (visitAll same same names answer (traverse spec_a) (fresh spec_a)))
    as [v' Hv] by (vm_compute; eauto).
  destruct (cache_only_grows same same names answer (traverse spec_a) (fresh spec_a) v' Hv)
    as (_ & _ & _ & Hlen & Hs & _).
  exists v'. by repeat split.
Defined.

Lemma validate_result_entries_witness :
  exists status sv,
    validator_validate same same names answer traverse unit project = Some (status, sv) /\
    forall a spec errs, status !! a = Some (spec, errs) -> errs <> [] /\ spec_addr spec = a.
Proof.
  assert (is_Some (validator_validate same same names answer traverse unit project))
    as [[status sv] Hv] by (vm_compute; eauto).
  exists status, sv. split; [exact Hv |]. intros a spec errs Hl.
  destruct (validate_result_entries same same names answer traverse unit project status sv
              Hv a spec errs Hl) as (H1 & _ & H2 & _).
  by split.
Defined.

Lemma answer_valid_all_valid : all_valid answer_valid.
Proof. intros m v. eexists. repeat split. Qed.

Lemma all_valid_no_errors_witness :
  exists sv,
    validator_validate same same names answer_valid traverse unit project = Some (∅, sv) /\
    stepValidationErrors sv = [].
Proof.
  exact (all_valid_no_errors same same names answer_valid traverse unit project
           answer_valid_all_valid).
Defined.

Lemma entries_a_distinct :
  NoDup (entry_spec_addrs ([] ++ (spec_a, errors_a) :: [])) /\
  NoDup (entry_scenario_addrs ([] ++ (spec_a, errors_a) :: [])).
Proof.
  split; vm_compute.
  - apply NoDup_singleton.
  - apply NoDup_cons. split; [| apply NoDup_singleton].
    intros Hin%list_elem_of_singleton. discriminate.
Qed.

Lemma scenario_lists_witness :
  ScenarioErrs (getErrMap [(spec_a, errors_a)]) !! scenario_addr scenario_a2
  = Some [not_found missing_in_concept "concepts/greet.cpt"].
Proof.
  destruct entries_a_distinct as [H1 H2].
  destruct (scenario_lists [] [] spec_a errors_a scenario_a2 H1 H2) as (Hl & _ & _).
  { vm_compute. apply list_elem_of_further, list_elem_of_here. }
  cbn [app] in Hl. rewrite Hl; [vm_compute; reflexivity |]. vm_compute. discriminate.
Defined.

Lemma specification_list_witness :
  SpecErrs (getErrMap [(spec_a, errors_a)]) !! spec_addr spec_a
  = Some [not_found missing "specs/a.spec"].
Proof.
  destruct entries_a_distinct as [H1 H2].
  destruct (proj1 (specification_list [] [] spec_a errors_a H1 H2)) as (first & rest & Hs & Hl).
  { split; [discriminate |]. intros scn Hin. vm_compute in Hin.
    repeat (apply elem_of_cons in Hin as [->|Hin]); try (by apply elem_of_nil in Hin);
      vm_compute; discriminate. }
  cbn [app] in Hl. rewrite Hl. injection Hs as <- <-. vm_compute. reflexivity.
Defined.

Lemma by_address_lists (m : validationErrors) (entry : Specification * list StepValidationError) :
  (exists a, m !! a = Some entry) -> entry ∈ by_address m.
Proof.
  intros [a Ha]. unfold by_address, validationErrors in *.
  apply (list_elem_of_fmap_2 snd _ (a, entry)). by apply elem_of_map_to_list.
Qed.

Lemma Validate_releases_runner_witness :
  exists ending hs body,
    Validate_example [] = Some (ending, hs) /\
    effects_of hs = StartAPI false :: body ++ [Kill].
Proof.
  assert (is_Some (Validate_example [])) as [[ending hs] Hv] by (vm_compute; eauto).
  destruct (Validate_releases_runner same same names answer_valid traverse unit manifest_found
              concepts_parsed all_parsed comes_up by_address "specs" [] ending hs Hv)
    as [Hoff|(body & Hb & _)].
  - exfalso. vm_compute in Hv. injection Hv as <- <-. vm_compute in Hoff.
    apply Forall_cons in Hoff as [[] _].
  - by exists ending, hs, body.
Defined.

Lemma Validate_exit_status_witness :
  exists hs, Validate_example [] = Some (Return, hs).
Proof.
  assert (is_Some (validator_validate same same names answer_valid traverse unit
                     (newValidator unit manifest_found.1
                        (all_parsed (with_default "specs" []) concepts_parsed.1).1 []
                        concepts_parsed.1)))
    as [[vErrs sv] Hv] by (vm_compute; eauto).
  destruct (Validate_exit_status same same names answer_valid traverse unit manifest_found
              concepts_parsed all_parsed comes_up by_address "specs" [] vErrs sv
              eq_refl eq_refl eq_refl by_address_lists Hv) as [hs H].
  exists hs. unfold Validate_example. rewrite H. vm_compute in Hv. injection Hv as <- _.
  cbn [all_parsed fst snd orb negb Ok concepts_parsed]. by rewrite decide_True.
Defined.

End MoreExamples.
